(** * The undelivered-payload queue of delivery-expo

    A shallow embedding of [packages/delivery-expo/queue.js]: the class
    [UndeliveredPayloadQueue] keeps undelivered payloads as JSON files in a
    cache directory and treats the sorted list of file names as a FIFO queue.

    The queue talks to three things it does not own: expo's [FileSystem],
    the clock ([new Date()]) and [Math.random].  The file system is modelled
    as a finite map from paths to nodes with an oracle that can make any
    call reject; clock readings and random draws are explicit arguments of
    the operation that reads them. *)

From stdpp Require Import gmap strings list fin_maps sorting pretty.
From Stdlib Require Import Ascii ZArith Lia.

Local Open Scope string_scope.
Set Warnings "-register-all".

(** ** JavaScript strings *)

(** Strings are sequences of code units below 256, so that the code-unit
    order used by [Array.prototype.sort] without a comparator is the order
    of [String.compare]; stdpp's [String.le] is [String.leb] as a relation. *)

Definition js_sort (l : list string) : list string := merge_sort String.le l.

Definition str_lt (a b : string) : Prop := String.compare a b = Lt.

(** [LF] and [CR]: the line terminators that the regular expression dot
    does not match (the two others, U+2028 and U+2029, are above 255). *)
Definition line_terminator (c : ascii) : bool :=
  bool_decide (c = "010"%char) || bool_decide (c = "013"%char).

Fixpoint has_line_terminator (s : string) : bool :=
  match s with
  | "" => false
  | String c s' => line_terminator c || has_line_terminator s'
  end.

Fixpoint has_slash (s : string) : bool :=
  match s with
  | "" => false
  | String c s' => bool_decide (c = "/"%char) || has_slash s'
  end.

Fixpoint ends_with (suffix s : string) : bool :=
  String.eqb s suffix ||
  match s with
  | "" => false
  | String _ s' => ends_with suffix s'
  end.

Fixpoint strip_prefix (p s : string) : option string :=
  match p, s with
  | "", _ => Some s
  | String a p', String b s' =>
      if bool_decide (a = b) then strip_prefix p' s' else None
  | String _ _, "" => None
  end.

(** ** Constants of the module *)

Definition MAX_ITEMS : nat := 64.

(** [const filenameRe = /^bugsnag-.*\.json$/] and its [test]: the name starts
    with [bugsnag-], what follows ends with [.json], and the part matched by
    [.*] holds no line terminator ([.json] holds none either). *)
Definition filenameRe_test (f : string) : bool :=
  match strip_prefix "bugsnag-" f with
  | Some rest => ends_with ".json" rest && negb (has_line_terminator rest)
  | None => false
  end.

(** ** Dates and [toISOString] *)

(** A [Date] through its UTC getters; [utcMonth] counts from 0 as in
    JavaScript. *)
Record Date := {
  utcFullYear : Z;
  utcMonth : nat;
  utcDate : nat;
  utcHours : nat;
  utcMinutes : nat;
  utcSeconds : nat;
  utcMilliseconds : nat
}.

Definition digit (n : nat) : ascii := ascii_of_nat (48 + n mod 10).

(** Decimal representation in exactly [w] characters, zero padded. *)
Fixpoint pad (w n : nat) : string :=
  match w with
  | 0 => ""
  | S w' => pad w' (n / 10) +:+ String (digit n) ""
  end.

(** Years 0 to 9999 print as four digits; the others as a sign and six. *)
Definition iso_year (y : Z) : string :=
  if bool_decide (0 ≤ y ≤ 9999)%Z then pad 4 (Z.to_nat y)
  else (if bool_decide (y < 0)%Z then "-" else "+") +:+ pad 6 (Z.abs_nat y).

Definition toISOString (d : Date) : string :=
  iso_year (utcFullYear d) +:+ "-" +:+ pad 2 (utcMonth d + 1) +:+ "-" +:+
  pad 2 (utcDate d) +:+ "T" +:+ pad 2 (utcHours d) +:+ ":" +:+
  pad 2 (utcMinutes d) +:+ ":" +:+ pad 2 (utcSeconds d) +:+ "." +:+
  pad 3 (utcMilliseconds d) +:+ "Z".

(** The calendar dates of the years 0 to 9999, which [toISOString] prints
    in 24 characters. *)
Definition calendar_date (d : Date) : Prop :=
  (0 ≤ utcFullYear d ≤ 9999)%Z ∧ utcMonth d < 12 ∧ (1 ≤ utcDate d ≤ 31)%nat ∧
  utcHours d < 24 ∧ utcMinutes d < 60 ∧ utcSeconds d < 60 ∧
  utcMilliseconds d < 1000.

(** Chronological order, field by field. *)
Definition date_key (d : Date) : list nat :=
  [Z.to_nat (utcFullYear d); utcMonth d; utcDate d; utcHours d;
   utcMinutes d; utcSeconds d; utcMilliseconds d].

Fixpoint lex_lt (a b : list nat) : Prop :=
  match a, b with
  | x :: a', y :: b' => x < y ∨ (x = y ∧ lex_lt a' b')
  | _, _ => False
  end.

Definition earlier (d1 d2 : Date) : Prop := lex_lt (date_key d1) (date_key d2).

(** ** File names *)

(** [uid]: sixteen draws of [Math.floor(Math.random() * 10)] appended as
    decimal digits; [draws i] is the i-th draw, reduced to its range 0..9. *)
Definition uid (draws : nat → nat) : string :=
  fold_left (λ accum i, accum +:+ String (digit (draws i)) "") (seq 0 16) "".

Definition generateFilename (resource : string) (now : Date)
    (draws : nat → nat) : string :=
  "bugsnag-" +:+ resource +:+ "-" +:+ toISOString now +:+ "-" +:+
  uid draws +:+ ".json".

(** ** JSON values and object spread *)

(** Numbers are the integers, which is what the [retries] counter needs.
    An object is the list of its own properties in insertion order. What
    JSON text cannot hold ([undefined], functions) is not a value here:
    requests and updates are taken to be JSON values. *)
Inductive json :=
  | JNull
  | JBool (b : bool)
  | JNumber (n : Z)
  | JString (s : string)
  | JArray (l : list json)
  | JObject (props : list (string * json)).

(** The text of a file, up to what [JSON.parse] makes of it: either the text
    of a value, which parses back to that value, or text that [JSON.parse]
    rejects. *)
Inductive text :=
  | Stringified (v : json)
  | Malformed (s : string).

Definition JSON_stringify (v : json) : text := Stringified v.

(** Assigning a property keeps the position of an existing key. *)
Fixpoint set_prop (k : string) (v : json) (ps : list (string * json))
    : list (string * json) :=
  match ps with
  | [] => [(k, v)]
  | (k', v') :: ps' =>
      if bool_decide (k = k') then (k, v) :: ps' else (k', v') :: set_prop k v ps'
  end.

Fixpoint get_prop (k : string) (ps : list (string * json)) : option json :=
  match ps with
  | [] => None
  | (k', v') :: ps' => if bool_decide (k = k') then Some v' else get_prop k ps'
  end.

Fixpoint chars (s : string) : list json :=
  match s with
  | "" => []
  | String c s' => JString (String c "") :: chars s'
  end.

(** The own enumerable properties that [...v] copies. *)
Definition own_props (v : json) : list (string * json) :=
  match v with
  | JObject ps => ps
  | JArray l => imap (λ i x, (pretty i, x)) l
  | JString s => imap (λ i x, (pretty i, x)) (chars s)
  | _ => []
  end.

Definition spread (target : list (string * json)) (source : json)
    : list (string * json) :=
  fold_left (λ acc kv, set_prop kv.1 kv.2 acc) (own_props source) target.

(** [{ ...req, retries: 0 }] *)
Definition with_retries_0 (req : json) : json :=
  JObject (set_prop "retries" (JNumber 0) (spread [] req)).

(** [{ ...payload, ...updates }] *)
Definition merged (payload updates : json) : json :=
  JObject (spread (spread [] payload) updates).


(** ** The file system *)

Inductive node :=
  | File (t : text)
  | Directory.

Inductive fs_call :=
  | GetInfoAsync (p : string)
  | MakeDirectoryAsync (p : string)
  | ReadDirectoryAsync (p : string)
  | ReadAsStringAsync (p : string)
  | WriteAsStringAsync (p : string)
  | DeleteAsync (p : string).

Inductive error :=
  | Failed (call : fs_call)
  | SyntaxError.

(** Everything the queue object can see or change: the files, the number of
    [FileSystem] calls made so far, the oracle that says which call rejects
    for reasons of the device (the n-th call, and what it is), the errors
    handed to [onerror] so far, and the [_truncating] field of the object.

    The last field is the part of the event loop that matters to the queue:
    the call of [_truncate] that [enqueue] has started and not awaited, if
    there is one. It is suspended at its [await], and what it awaits is the
    promise of the directory listing it has called for: settled with an
    error or with the names that were listed. *)
Record world := World {
  fs : gmap string node;
  tick : nat;
  faults : nat → fs_call → bool;
  reported : list error;
  _truncating : bool;
  in_flight : option (error + list string)
}.

Definition set_fs (m : gmap string node) (w : world) : world :=
  World m (tick w) (faults w) (reported w) (_truncating w) (in_flight w).

Definition next_tick (w : world) : world :=
  World (fs w) (S (tick w)) (faults w) (reported w) (_truncating w) (in_flight w).

Definition report (e : error) (w : world) : world :=
  World (fs w) (tick w) (faults w) (reported w ++ [e]) (_truncating w)
        (in_flight w).

Definition set_truncating (b : bool) (w : world) : world :=
  World (fs w) (tick w) (faults w) (reported w) b (in_flight w).

Definition set_in_flight (p : option (error + list string)) (w : world) : world :=
  World (fs w) (tick w) (faults w) (reported w) (_truncating w) p.

(** Directory and base name of a path: the split at its last slash. *)
Fixpoint split_path (p : string) : option (string * string) :=
  match p with
  | "" => None
  | String c p' =>
      match split_path p' with
      | Some (d, n) => Some (String c d, n)
      | None => if bool_decide (c = "/"%char) then Some ("", p') else None
      end
  end.

(** The name under which path [k] is listed in directory [p], if it is. *)
Definition child_name (p k : string) : option string :=
  match strip_prefix (p +:+ "/") k with
  | Some n => if has_slash n || bool_decide (n = "") then None else Some n
  | None => None
  end.

Definition children (p : string) (m : gmap string node) : list string :=
  omap (child_name p) (map_to_list m).*1.

(** What is left when [p] and everything below it is deleted. *)
Definition without (p : string) (m : gmap string node) : gmap string node :=
  filter (λ kv, kv.1 ≠ p ∧ strip_prefix (p +:+ "/") kv.1 = None) m.

(** ** Promises *)

(** An [async] function maps the world to a promise that is fulfilled or
    rejected in a later world, or that is still pending when the fuel of a
    recursive function has run out. *)
Inductive promise (A : Type) :=
  | Fulfilled (a : A) (w : world)
  | Rejected (e : error) (w : world)
  | Pending.
Arguments Fulfilled {A} a w.
Arguments Rejected {A} e w.
Arguments Pending {A}.

Definition async (A : Type) : Type := world → promise A.

#[global] Instance async_ret : MRet async := λ A a w, Fulfilled a w.

(** [await] then continue; a rejection skips the continuation. *)
#[global] Instance async_bind : MBind async := λ A B k m w,
  match m w with
  | Fulfilled a w' => k a w'
  | Rejected e w' => Rejected e w'
  | Pending => Pending
  end.

Definition try_catch {A} (body : async A) (handler : error → async A) : async A :=
  λ w, match body w with
       | Rejected e w' => handler e w'
       | settled => settled
       end.

(** A call that is not awaited where it is made: it is made there, in the
    world of the caller, and what is kept is its promise, settled with an
    error or with a value. *)
Definition called {A} (c : async A) : async (error + A) :=
  λ w, match c w with
       | Fulfilled a w' => Fulfilled (inr a) w'
       | Rejected e w' => Fulfilled (inl e) w'
       | Pending => Pending
       end.

(** [await] of a promise that has settled. *)
Definition await {A} (p : error + A) : async A :=
  λ w, match p with
       | inr a => Fulfilled a w
       | inl e => Rejected e w
       end.

(** A call into [FileSystem]: it counts, it rejects when the oracle says so
    and leaves the files alone then, and otherwise does what [effect] says,
    rejecting where [effect] is undefined. *)
Definition native {A} (call : fs_call)
    (effect : gmap string node → option (A * gmap string node)) : async A :=
  λ w, if faults w (tick w) call then Rejected (Failed call) (next_tick w)
       else match effect (fs w) with
            | Some (a, m) => Fulfilled a (set_fs m (next_tick w))
            | None => Rejected (Failed call) (next_tick w)
            end.

Module FileSystem.

(** [{ exists, isDirectory }] *)
Definition getInfoAsync (p : string) : async (bool * bool) :=
  native (GetInfoAsync p) (λ m,
    match m !! p with
    | Some Directory => Some ((true, true), m)
    | Some (File _) => Some ((true, false), m)
    | None => Some ((false, false), m)
    end).

(** With [{ intermediates: true }]: an existing directory is no error.
    Ancestors are not recorded, no operation of the queue looks at them. *)
Definition makeDirectoryAsync (p : string) : async () :=
  native (MakeDirectoryAsync p) (λ m,
    match m !! p with
    | Some (File _) => None
    | _ => Some ((), <[p := Directory]> m)
    end).

Definition readDirectoryAsync (p : string) : async (list string) :=
  native (ReadDirectoryAsync p) (λ m,
    match m !! p with
    | Some Directory => Some (children p m, m)
    | _ => None
    end).

Definition readAsStringAsync (p : string) : async text :=
  native (ReadAsStringAsync p) (λ m,
    match m !! p with
    | Some (File t) => Some (t, m)
    | _ => None
    end).

(** The directory of the file has to exist, and the path must not be a
    directory itself. *)
Definition writeAsStringAsync (p : string) (t : text) : async () :=
  native (WriteAsStringAsync p) (λ m,
    match split_path p with
    | Some (d, n) =>
        match m !! d, m !! p with
        | Some Directory, Some Directory => None
        | Some Directory, _ =>
            if bool_decide (n = "") then None else Some ((), <[p := File t]> m)
        | _, _ => None
        end
    | None => None
    end).

(** Without [{ idempotent: true }]: a missing path is an error. *)
Definition deleteAsync (p : string) : async () :=
  native (DeleteAsync p) (λ m,
    match m !! p with
    | Some _ => Some ((), without p m)
    | None => None
    end).

End FileSystem.

Definition JSON_parse (t : text) : async json :=
  λ w, match t with
       | Stringified v => Fulfilled v w
       | Malformed _ => Rejected SyntaxError w
       end.

(** [Promise.all] over promises that are run one after the other. *)
Fixpoint Promise_all (ps : list (async ())) : async () :=
  match ps with
  | [] => mret ()
  | p :: ps' => p ;; Promise_all ps'
  end.

(** ** The class [UndeliveredPayloadQueue] *)

(** [const PAYLOAD_PATH = `${FileSystem.cacheDirectory}bugsnag`] *)
Definition PAYLOAD_PATH (cacheDirectory : string) : string :=
  cacheDirectory +:+ "bugsnag".

(** The fields that the constructor sets once and for all: [_resource] and
    [_path]. The mutable [_truncating] lives in the world; [_onerror] is
    [onerror] below. *)
Record UndeliveredPayloadQueue := {
  _resource : string;
  _path : string
}.

Definition constructor (cacheDirectory resource : string)
    : UndeliveredPayloadQueue :=
  {| _resource := resource;
     _path := PAYLOAD_PATH cacheDirectory +:+ "/" +:+ resource |}.

(** [this._onerror(e)]: the sink records the error and returns. *)
Definition onerror (e : error) : async () :=
  λ w, Fulfilled () (report e w).

Definition assign_truncating (b : bool) : async () :=
  λ w, Fulfilled () (set_truncating b w).

(** An asynchronous call that nobody awaits stops at its first [await], on
    the promise [listing]. *)
Definition suspend (listing : error + list string) : async () :=
  λ w, Fulfilled () (set_in_flight (Some listing) w).

Section methods.

Variable this : UndeliveredPayloadQueue.

Definition entry (f : string) : string := _path this +:+ "/" +:+ f.

Definition init : async () :=
  info ← FileSystem.getInfoAsync (_path this);
  if info.1 && info.2 then mret ()
  else FileSystem.makeDirectoryAsync (_path this).

Definition remove (id : string) : async () :=
  try_catch (FileSystem.deleteAsync id) (λ e, onerror e).

(** The names that count as payloads, in queue order. *)
Definition payloads_of (names : list string) : list string :=
  js_sort (filter (λ f, filenameRe_test f = true) names).

(** The first two statements of [_truncate]: the single-flight guard. It
    says whether this invocation goes on. *)
Definition _truncate_guard : async bool :=
  λ w, if _truncating w then Fulfilled false w
       else Fulfilled true (set_truncating true w).

(** The rest of [_truncate], its [try] statement, as a function of the
    promise that the first [await] waits for. *)
Definition _truncate_from (listing : async (list string)) : async () :=
  try_catch
    (names ← listing;
     let payloads := payloads_of names in
     let diff := (Z.of_nat (length payloads) - Z.of_nat MAX_ITEMS)%Z in
     if bool_decide (diff < 0)%Z then assign_truncating false
     else
       Promise_all
         ((λ f, remove (entry f)) <$> take (Z.to_nat diff) payloads) ;;
       assign_truncating false)
    (λ e, assign_truncating false ;; onerror e).

(** One truncation pass with nothing in between: the directory is listed
    and the listing awaited at once. *)
Definition _truncate_pass : async () :=
  _truncate_from (FileSystem.readDirectoryAsync (_path this)).

(** [_truncate] run from its call to its end with nothing in between. *)
Definition _truncate : async () :=
  entered ← _truncate_guard;
  if entered : bool then _truncate_pass else mret ().

(** [this._truncate()] as [enqueue] calls it, without [await]: the call runs
    up to its first [await] and is suspended there. If the guard lets it
    in, [readDirectoryAsync] has been called by then, so the directory is
    listed as it is now, and the pass is left in flight with the promise
    of that listing. *)
Definition _truncate_unawaited : async () :=
  entered ← _truncate_guard;
  if entered : bool then
    listing ← called (FileSystem.readDirectoryAsync (_path this));
    suspend listing
  else mret ().

(** The clock reading and the random draws of [generateFilename] are
    arguments. The promise of [enqueue] is fulfilled while the pass it may
    have started is still in flight. *)
Definition enqueue (req : json) (now : Date) (draws : nat → nat) : async () :=
  try_catch
    (init ;;
     FileSystem.writeAsStringAsync
       (entry (generateFilename (_resource this) now draws))
       (JSON_stringify (with_retries_0 req)) ;;
     _truncate_unawaited)
    (λ e, onerror e).

(** The pass in flight, if there is one, is resumed with the listing it has
    been waiting for and runs to its end. *)
Definition settle : async () :=
  λ w, match in_flight w with
       | Some listing => _truncate_from (await listing) (set_in_flight None w)
       | None => Fulfilled () w
       end.

(** [peek] calls itself after removing an entry it could not read; [fuel]
    bounds the number of calls, and the promise is [Pending] when that
    number does not suffice. [None] is [null]. *)
Fixpoint peek (fuel : nat) : async (option (string * json)) :=
  match fuel with
  | 0 => λ _, Pending
  | S fuel' =>
      try_catch
        (payloads ← FileSystem.readDirectoryAsync (_path this);
         match head (payloads_of payloads) with
         | None => mret None
         | Some payloadFileName =>
             if bool_decide (payloadFileName = "") then mret None
             else
               let id := entry payloadFileName in
               try_catch
                 (payloadJson ← FileSystem.readAsStringAsync id;
                  payload ← JSON_parse payloadJson;
                  mret (Some (id, payload)))
                 (λ e, remove id ;; peek fuel')
         end)
        (λ e, onerror e ;; mret None)
  end.

Definition update (id : string) (updates : json) : async () :=
  try_catch
    (payloadJson ← FileSystem.readAsStringAsync id;
     payload ← JSON_parse payloadJson;
     let updatedPayload := merged payload updates in
     FileSystem.writeAsStringAsync id (JSON_stringify updatedPayload))
    (λ e, onerror e).

End methods.

(** ** The queue as a list, schedules and draining *)

(** The queue that the files of [m] stand for: the payload names listed in
    the directory of the queue, oldest name first. *)
Definition queue_of (this : UndeliveredPayloadQueue) (m : gmap string node)
    : list string :=
  payloads_of (children (_path this) m).

(** What producers and the event loop do to a queue: a call of [enqueue], or
    the truncation pass in flight being resumed and running to its end. *)
Inductive event :=
  | Enqueue (req : json) (now : Date) (draws : nat → nat)
  | Settle.

Definition step (this : UndeliveredPayloadQueue) (e : event) : async () :=
  match e with
  | Enqueue req now draws => enqueue this req now draws
  | Settle => settle this
  end.

Fixpoint run (this : UndeliveredPayloadQueue) (es : list event) : async () :=
  match es with
  | [] => mret ()
  | e :: es' => step this e ;; run this es'
  end.

(** The name and the stored payload of every [enqueue] of a schedule. *)
Definition enqueued (this : UndeliveredPayloadQueue) (es : list event)
    : list (string * json) :=
  omap (λ e, match e with
             | Enqueue req now draws =>
                 Some (generateFilename (_resource this) now draws,
                       with_retries_0 req)
             | Settle => None
             end) es.

Definition clock_readings (es : list event) : list Date :=
  omap (λ e, match e with
             | Enqueue _ now _ => Some now
             | Settle => None
             end) es.

(** Repeated [peek] and [remove]: at most [rounds] payloads are taken from
    the queue, and the list of what [peek] returned is the result. *)
Fixpoint drain (this : UndeliveredPayloadQueue) (fuel rounds : nat)
    : async (list (string * json)) :=
  match rounds with
  | 0 => mret []
  | S rounds' =>
      head ← peek this fuel;
      match head with
      | None => mret []
      | Some (id, payload) =>
          remove id ;;
          rest ← drain this fuel rounds';
          mret ((id, payload) :: rest)
      end
  end.

(** No call into the file system rejects for reasons of the device. *)
Definition calm (w : world) : Prop := ∀ n call, faults w n call = false.

(** ** Weakest preconditions *)

(** [wp c w Q E D]: from [w], [c] is fulfilled with a value and a world in
    [Q], or rejected with an error and a world in [E], or pending, which is
    allowed only if [D] holds. *)
Definition wp {A} (c : async A) (w : world) (Q : A → world → Prop)
    (E : error → world → Prop) (D : Prop) : Prop :=
  match c w with
  | Fulfilled a w' => Q a w'
  | Rejected e w' => E e w'
  | Pending => D
  end.

(** ** Notions used in the statements *)

Local Open Scope list_scope.
Local Open Scope nat_scope.

(** The queue as a list of names *)
Definition listed (this : UndeliveredPayloadQueue) (m : gmap string node)
    (n : string) : Prop :=
  filenameRe_test n = true ∧ has_slash n = false ∧ is_Some (m !! entry this n).

Definition peeked (this : UndeliveredPayloadQueue) (r : option (string * json))
    (w : world) : Prop :=
  match r with
  | None => True
  | Some (id, v) =>
      ∃ f, id = entry this f ∧ filenameRe_test f = true ∧ has_slash f = false ∧
           fs w !! id = Some (File (Stringified v))
  end.

Definition listing_or_delete_failure (e : error) : Prop :=
  ∃ p, e = Failed (ReadDirectoryAsync p) ∨ e = Failed (DeleteAsync p).

(** Outcomes of the operations, whatever the device does *)
Definition removal (id : string) (w w' : world) : Prop :=
  (is_Some (fs w !! id) ∧ fs w' = without id (fs w) ∧ reported w' = reported w)
  ∨ (fs w' = fs w ∧ ∃ e, reported w' = reported w ++ [e]).

Definition rewrite_of (id : string) (updates : json) (w w' : world) : Prop :=
  (∃ v, fs w !! id = Some (File (Stringified v))
        ∧ fs w' = <[id := File (JSON_stringify (merged v updates))]> (fs w)
        ∧ reported w' = reported w)
  ∨ (fs w' = fs w ∧ ∃ e, reported w' = reported w ++ [e]).

Definition addition (this : UndeliveredPayloadQueue) (f : string) (req : json)
    (w w' : world) : Prop :=
  (fs w' = <[entry this f := File (JSON_stringify (with_retries_0 req))]>
             (<[_path this := Directory]> (fs w))
   ∧ reported w' = reported w ∧ _truncating w' = true)
  ∨ ((fs w' = fs w ∨ fs w' = <[_path this := Directory]> (fs w))
     ∧ ∃ e, reported w' = reported w ++ [e]).

(** What a call of [enqueue] does to the single-flight guard: nothing, or
    it starts a pass. *)
Definition flight (w w' : world) : Prop :=
  (_truncating w' = _truncating w ∧ in_flight w' = in_flight w)
  ∨ (_truncating w = false ∧ _truncating w' = true ∧ is_Some (in_flight w')).

(** A pass is in flight exactly when the flag is set. *)
Definition single_flight (w : world) : Prop :=
  _truncating w = true ↔ is_Some (in_flight w).

Definition unreadable (x : node) : Prop :=
  match x with
  | File (Stringified _) => False
  | _ => True
  end.

Definition resource_ok (this : UndeliveredPayloadQueue) : Prop :=
  has_slash (_resource this) = false ∧ has_line_terminator (_resource this) = false.

Definition fresh (this : UndeliveredPayloadQueue) (w : world) : Prop :=
  queue_of this (fs w) = [] ∧ ∀ t, fs w !! _path this ≠ Some (File t).

(** What holds of the world after the enqueues [hist], oldest first, on a
    calm device: the queue is [hist] without its [k] oldest entries, each
    entry holds its payload, and nothing is missing unless more than
    [MAX_ITEMS] were enqueued. [pass] is [Some n] when a pass is in flight
    that has listed the entries left of the first [n] enqueues. *)
Record inv (this : UndeliveredPayloadQueue) (hist : list (string * json))
    (k : nat) (pass : option nat) (w : world) : Prop := {
  inv_calm : calm w;
  inv_path : ∀ t, fs w !! _path this ≠ Some (File t);
  inv_dir : hist ≠ [] → fs w !! _path this = Some Directory;
  inv_queue : queue_of this (fs w) = drop k hist.*1;
  inv_kept : k = 0 ∨ k + MAX_ITEMS ≤ length hist;
  inv_files : ∀ n v, (n, v) ∈ drop k hist →
                     fs w !! entry this n = Some (File (Stringified v));
  inv_flight :
    match pass with
    | Some n =>
        _truncating w = true ∧ n ≤ length hist ∧ (k = 0 ∨ k + MAX_ITEMS ≤ n)
        ∧ ∃ names, in_flight w = Some (inr names)
                   ∧ payloads_of names = drop k (take n hist.*1)
    | None => in_flight w = None
    end
}.

(** The first [k] entries go when a pass that has listed [n] enqueues is
    resumed. *)
Definition after_pass (k : nat) (pass : option nat) : nat :=
  match pass with
  | Some n => k + (n - k - MAX_ITEMS)
  | None => k
  end.

(** The property [k] of an object. *)
Definition field (k : string) (v : json) : option json :=
  match v with
  | JObject ps => get_prop k ps
  | _ => None
  end.

Definition assign (acc : list (string * json)) (kv : string * json) :=
  set_prop kv.1 kv.2 acc.


(** ** Scenarios *)
Definition events_queue : UndeliveredPayloadQueue :=
  constructor "file:///cache/" "events".

Definition no_faults : nat → fs_call → bool := λ _ _, false.

Definition delete_rejected : nat → fs_call → bool :=
  λ _ call, match call with DeleteAsync _ => true | _ => false end.


Definition device (m : gmap string node) (oracle : nat → fs_call → bool) : world :=
  World m 0 oracle [] false None.

Definition report_a : json := JObject [("apiKey", JString "a")].
Definition report_b : json := JObject [("apiKey", JString "b")].

Definition entry_a : string := entry events_queue "bugsnag-a.json".
Definition entry_b : string := entry events_queue "bugsnag-b.json".
Definition notes : string := entry events_queue "notes.txt".

(** A corrupt oldest entry, a valid second one, and a file that is none of
    the queue's. *)
Definition corrupt_then_valid : gmap string node :=
  list_to_map [(_path events_queue, Directory);
               (entry_a, File (Malformed "{"));
               (entry_b, File (Stringified (with_retries_0 report_b)));
               (notes, File (Malformed "to do"))].

Definition two_valid : gmap string node :=
  list_to_map [(_path events_queue, Directory);
               (entry_a, File (Stringified (with_retries_0 report_a)));
               (entry_b, File (Stringified (with_retries_0 report_b)))].

Definition noon (ms : nat) : Date := Build_Date 2019 0 7 12 0 0 ms.

(** Sixty-five entries. *)
Definition crowded : gmap string node :=
  list_to_map ((_path events_queue, Directory) ::
               ((λ i, (entry events_queue ("bugsnag-" +:+ pad 2 i +:+ ".json"),
                       File (Stringified (with_retries_0 (JNumber (Z.of_nat i))))))
                  <$> seq 0 65)).

(** The draws that make the uid fourteen zeros and the two digits of [n]. *)
Definition draws_of (n : nat) : nat → nat :=
  λ i, match 15 - i with
       | 0 => n
       | 1 => n / 10
       | _ => 0
       end.

(** Sixty-five enqueues within one millisecond, the last with the lowest
    uid; no pass is in flight when the last one is made. *)
Definition burst : list event :=
  ((λ i, Enqueue (JNumber (Z.of_nat i)) (noon 0) (draws_of (S i))) <$> seq 0 64)
  ++ [Settle; Enqueue (JNumber 64) (noon 0) (draws_of 0)].

(** [n] enqueues, one in each millisecond from [first] on. *)
Definition steady (first n : nat) : list event :=
  (λ i, Enqueue (JNumber (Z.of_nat i)) (noon i) (draws_of 0)) <$> seq first n.

(** What a promise was fulfilled with, and the world it settled in. *)
Definition returned {A} (p : promise A) : option A :=
  match p with
  | Fulfilled a _ => Some a
  | _ => None
  end.

Definition settled_in {A} (p : promise A) : option world :=
  match p with
  | Fulfilled _ w | Rejected _ w => Some w
  | Pending => None
  end.

Definition two_enqueues : list event :=
  [Enqueue report_a (noon 0) (draws_of 9); Enqueue report_b (noon 1) (draws_of 0)].

(** Sixty-four enqueues, then one that starts a pass when none is in
    flight, and one more while that pass is in flight. *)
Definition overflow : list event :=
  steady 0 64 ++ Settle :: Enqueue (JNumber 64) (noon 64) (draws_of 0) :: steady 65 1.

(** The world in which [peek] has healed [corrupt_then_valid]. *)
Definition healed : world :=
  World (without entry_a corrupt_then_valid) 5 no_faults [] false None.



(** A pass in flight on [two_valid]. *)
Definition passing : world :=
  World two_valid 1 no_faults [] true
        (Some (inr ["bugsnag-a.json"; "bugsnag-b.json"])).


(** A queue in which nothing can be read: a corrupt file and a directory
    that is named like a payload. *)
Definition unreadable_only : gmap string node :=
  list_to_map [(_path events_queue, Directory);
               (entry_a, File (Malformed "{"));
               (entry_b, Directory)].

(** A file where the directory of the queue should be. *)
Definition blocked : gmap string node :=
  {[ _path events_queue := File (Malformed "x") ]}.

Definition first_name : string := generateFilename "events" (noon 0) (draws_of 0).


Definition bump : json := JObject [("retries", JNumber 1)].

Definition after_bump : world :=
  World (<[entry_a := File (Stringified (merged (with_retries_0 report_a) bump))]>
           two_valid) 2 no_faults [] false None.

(** * Properties *)

(** Strings *)
Lemma str_app_cons c (a b : string) : String c a +:+ b = String c (a +:+ b).
Proof. reflexivity. Qed.

Lemma str_app_nil_l (a : string) : "" +:+ a = a.
Proof. reflexivity. Qed.


Lemma str_app_assoc (a b c : string) : (a +:+ b) +:+ c = a +:+ b +:+ c.
Proof. induction a as [|x a IH]; [done|]. by rewrite !str_app_cons, IH. Qed.

Lemma str_length_app (a b : string) :
  String.length (a +:+ b) = String.length a + String.length b.
Proof. induction a as [|x a IH]; [done|]. rewrite str_app_cons. simpl. lia. Qed.

Lemma strip_prefix_Some p s r : strip_prefix p s = Some r ↔ s = p +:+ r.
Proof.
  revert s. induction p as [|a p IH]; intros s; simpl.
  - rewrite str_app_nil_l. split; congruence.
  - destruct s as [|b s]; [done|]. rewrite str_app_cons. case_bool_decide as Hab.
    + rewrite IH. subst. split; [by intros ->|by intros [= ->]].
    + split; [done|]. by intros [= ? _].
Qed.

Lemma strip_prefix_app p r : strip_prefix p (p +:+ r) = Some r.
Proof. by apply strip_prefix_Some. Qed.

Lemma has_slash_app a b : has_slash (a +:+ b) = has_slash a || has_slash b.
Proof.
  induction a as [|x a IH]; [done|]. rewrite str_app_cons. simpl.
  by rewrite IH, orb_assoc.
Qed.

Lemma has_line_terminator_app a b :
  has_line_terminator (a +:+ b) = has_line_terminator a || has_line_terminator b.
Proof.
  induction a as [|x a IH]; [done|]. rewrite str_app_cons. simpl.
  by rewrite IH, orb_assoc.
Qed.

Lemma ends_with_app suffix a : ends_with suffix (a +:+ suffix) = true.
Proof.
  induction a as [|x a IH].
  - rewrite str_app_nil_l. destruct suffix; [done|].
    cbn [ends_with]. by rewrite String.eqb_refl.
  - rewrite str_app_cons. simpl. rewrite IH. apply orb_true_r.
Qed.

Lemma split_path_None n : has_slash n = false → split_path n = None.
Proof.
  induction n as [|c n IH]; [done|]. simpl. intros [Hc Hn]%orb_false_elim.
  rewrite IH by done. by rewrite Hc.
Qed.

Lemma split_path_entry d n :
  has_slash n = false → split_path (d +:+ "/" +:+ n) = Some (d, n).
Proof.
  intros Hn. induction d as [|c d IH].
  - rewrite str_app_nil_l. change ("/" +:+ n) with (String "/" n). simpl.
    by rewrite split_path_None.
  - rewrite str_app_cons. simpl. by rewrite IH.
Qed.

Lemma entry_name_inj p a b : p +:+ "/" +:+ a = p +:+ "/" +:+ b → a = b.
Proof. by intros ?%(inj (String.app p))%(inj (String.app "/")). Qed.

Lemma child_name_Some p k n :
  child_name p k = Some n ↔
  k = p +:+ "/" +:+ n ∧ has_slash n = false ∧ n ≠ "".
Proof.
  unfold child_name. destruct (strip_prefix _ k) as [r|] eqn:Hr.
  - apply strip_prefix_Some in Hr. rewrite str_app_assoc in Hr. subst k.
    destruct (has_slash r) eqn:Hs; simpl.
    + split; [done|]. intros (?%entry_name_inj & ? & ?). congruence.
    + case_bool_decide; split; try done.
      * intros (?%entry_name_inj & ? & ?). congruence.
      * by intros [= ->].
      * intros (?%entry_name_inj & ? & ?). congruence.
  - split; [done|]. intros (-> & _). rewrite <-str_app_assoc, strip_prefix_app in Hr. done.
Qed.

Lemma elem_of_children p m n :
  n ∈ children p m ↔
  has_slash n = false ∧ n ≠ "" ∧ is_Some (m !! (p +:+ "/" +:+ n)).
Proof.
  unfold children. rewrite list_elem_of_omap. split.
  - intros (k & Hk & (-> & ? & ?)%child_name_Some).
    apply list_elem_of_fmap in Hk as ([k' x] & -> & Hx).
    apply elem_of_map_to_list in Hx. simpl. eauto.
  - intros (? & ? & [x Hx]). exists (p +:+ "/" +:+ n). split.
    + apply list_elem_of_fmap. exists (p +:+ "/" +:+ n, x). split; [done|].
      by apply elem_of_map_to_list.
    + by apply child_name_Some.
Qed.

Lemma NoDup_omap_inj {A B} (f : A → option B) l :
  (∀ x y z, f x = Some z → f y = Some z → x = y) →
  NoDup l → NoDup (omap f l).
Proof.
  intros Hf. induction 1 as [|x l Hx _ IH]; simpl; [constructor|].
  destruct (f x) as [z|] eqn:Hz; [|done].
  constructor; [|done]. rewrite list_elem_of_omap. intros (y & Hy & Hfy).
  by rewrite (Hf x y z) in Hx.
Qed.

Lemma NoDup_children p m : NoDup (children p m).
Proof.
  unfold children. apply NoDup_omap_inj; [|apply NoDup_fst_map_to_list].
  by intros k1 k2 n (-> & _)%child_name_Some (-> & _)%child_name_Some.
Qed.

Lemma filenameRe_nonempty n : filenameRe_test n = true → n ≠ "".
Proof. by intros H ->. Qed.

Lemma elem_of_payloads_of n names :
  n ∈ payloads_of names ↔ filenameRe_test n = true ∧ n ∈ names.
Proof.
  unfold payloads_of, js_sort.
  by rewrite merge_sort_Permutation, list_elem_of_filter.
Qed.

Lemma elem_of_queue_of this m n : n ∈ queue_of this m ↔ listed this m n.
Proof.
  unfold queue_of, listed. rewrite elem_of_payloads_of, elem_of_children.
  split; [tauto|]. intros (? & ? & ?). eauto using filenameRe_nonempty.
Qed.

Lemma Sorted_queue_of this m : Sorted String.le (queue_of this m).
Proof. apply (Sorted_merge_sort _). Qed.

Lemma NoDup_queue_of this m : NoDup (queue_of this m).
Proof.
  unfold queue_of, payloads_of, js_sort. rewrite merge_sort_Permutation.
  apply NoDup_filter, NoDup_children.
Qed.

Lemma queue_of_unique this m l :
  Sorted String.le l → NoDup l → (∀ n, n ∈ l ↔ listed this m n) →
  queue_of this m = l.
Proof.
  intros Hs Hn Hl. apply (Sorted_unique String.le); [apply Sorted_queue_of|done|].
  apply NoDup_Permutation; [apply NoDup_queue_of|done|].
  intros n. by rewrite elem_of_queue_of, Hl.
Qed.

Lemma queue_of_ext this m m' :
  (∀ n, listed this m n ↔ listed this m' n) → queue_of this m = queue_of this m'.
Proof.
  intros H. symmetry. apply queue_of_unique;
    [apply Sorted_queue_of|apply NoDup_queue_of|].
  intros n. by rewrite elem_of_queue_of, H.
Qed.

(** Deleting a path *)
Lemma lookup_without_Some p m k x :
  without p m !! k = Some x ↔
  m !! k = Some x ∧ k ≠ p ∧ strip_prefix (p +:+ "/") k = None.
Proof. unfold without. by rewrite map_lookup_filter_Some. Qed.

Lemma lookup_without_same p m : without p m !! p = None.
Proof.
  destruct (without p m !! p) eqn:H; [|done].
  by apply lookup_without_Some in H as (_ & ? & _).
Qed.

Lemma lookup_without_None p m k : m !! k = None → without p m !! k = None.
Proof.
  intros Hk. destruct (without p m !! k) eqn:H; [|done].
  apply lookup_without_Some in H as (? & _). congruence.
Qed.

Lemma strip_prefix_entry_None p f g :
  has_slash g = false → strip_prefix ((p +:+ "/" +:+ f) +:+ "/") (p +:+ "/" +:+ g) = None.
Proof.
  intros Hg. destruct (strip_prefix _ _) as [r|] eqn:Hr; [|done].
  apply strip_prefix_Some in Hr. rewrite !str_app_assoc in Hr.
  apply entry_name_inj in Hr. subst g.
  rewrite !has_slash_app in Hg. simpl in Hg.
  by rewrite orb_true_r in Hg.
Qed.

Lemma lookup_without_entry this f g m :
  has_slash g = false → f ≠ g →
  without (entry this f) m !! entry this g = m !! entry this g.
Proof.
  intros Hg Hfg. destruct (m !! entry this g) as [x|] eqn:Hx.
  - apply lookup_without_Some. split_and!; [done| |by apply strip_prefix_entry_None].
    by intros ?%entry_name_inj.
  - by apply lookup_without_None.
Qed.

(** Digits and padded numbers *)
Local Arguments digit : simpl never.
Local Arguments line_terminator : simpl never.
Lemma digit_cases n :
  digit n ∈ ["0"; "1"; "2"; "3"; "4"; "5"; "6"; "7"; "8"; "9"]%char.
Proof.
  unfold digit. pose proof (Nat.mod_upper_bound n 10 ltac:(done)) as Hk.
  set (k := n mod 10) in *. clearbody k.
  do 10 (destruct k as [|k]; [set_solver|]). lia.
Qed.

Lemma line_terminator_digit n : line_terminator (digit n) = false.
Proof.
  pose proof (digit_cases n) as H. set (c := digit n) in *. clearbody c.
  repeat (apply elem_of_cons in H as [->|H]; [done|]). by apply elem_of_nil in H.
Qed.

Lemma slash_digit n : bool_decide (digit n = "/"%char) = false.
Proof.
  pose proof (digit_cases n) as H. set (c := digit n) in *. clearbody c.
  repeat (apply elem_of_cons in H as [->|H]; [done|]). by apply elem_of_nil in H.
Qed.

Lemma length_pad w n : String.length (pad w n) = w.
Proof.
  revert n. induction w as [|w IH]; intros n; [done|].
  simpl. rewrite str_length_app, IH. simpl. lia.
Qed.

Lemma has_line_terminator_pad w n : has_line_terminator (pad w n) = false.
Proof.
  revert n. induction w as [|w IH]; intros n; [done|].
  cbn [pad]. rewrite has_line_terminator_app, IH. cbn [has_line_terminator].
  by rewrite line_terminator_digit.
Qed.

Lemma has_slash_pad w n : has_slash (pad w n) = false.
Proof.
  revert n. induction w as [|w IH]; intros n; [done|].
  cbn [pad]. rewrite has_slash_app, IH. cbn [has_slash]. by rewrite slash_digit.
Qed.

Lemma has_line_terminator_iso d : has_line_terminator (toISOString d) = false.
Proof.
  unfold toISOString, iso_year.
  repeat case_bool_decide;
    rewrite ?has_line_terminator_app, ?has_line_terminator_pad; done.
Qed.

Lemma has_slash_iso d : has_slash (toISOString d) = false.
Proof.
  unfold toISOString, iso_year.
  repeat case_bool_decide; rewrite ?has_slash_app, ?has_slash_pad; done.
Qed.

Lemma uid_unfold draws :
  uid draws = pad 1 (draws 0) +:+ pad 1 (draws 1) +:+ pad 1 (draws 2) +:+
    pad 1 (draws 3) +:+ pad 1 (draws 4) +:+ pad 1 (draws 5) +:+
    pad 1 (draws 6) +:+ pad 1 (draws 7) +:+ pad 1 (draws 8) +:+
    pad 1 (draws 9) +:+ pad 1 (draws 10) +:+ pad 1 (draws 11) +:+
    pad 1 (draws 12) +:+ pad 1 (draws 13) +:+ pad 1 (draws 14) +:+
    pad 1 (draws 15).
Proof. reflexivity. Qed.

Lemma has_line_terminator_uid draws : has_line_terminator (uid draws) = false.
Proof.
  rewrite uid_unfold.
  by rewrite ?has_line_terminator_app, ?has_line_terminator_pad.
Qed.

Lemma has_slash_uid draws : has_slash (uid draws) = false.
Proof. rewrite uid_unfold. by rewrite ?has_slash_app, ?has_slash_pad. Qed.

Lemma length_uid draws : String.length (uid draws) = 16.
Proof. reflexivity. Qed.

Lemma filenameRe_generateFilename resource now draws :
  has_line_terminator resource = false →
  filenameRe_test (generateFilename resource now draws) = true.
Proof.
  intros Hr. unfold filenameRe_test, generateFilename.
  rewrite strip_prefix_app.
  rewrite has_line_terminator_app, Hr, !has_line_terminator_app,
    has_line_terminator_iso, has_line_terminator_uid. simpl.
  rewrite <-!str_app_assoc. by rewrite ends_with_app.
Qed.

Lemma has_slash_generateFilename resource now draws :
  has_slash resource = false →
  has_slash (generateFilename resource now draws) = false.
Proof.
  intros Hr. unfold generateFilename.
  by rewrite !has_slash_app, Hr, has_slash_iso, has_slash_uid.
Qed.

(** The order of strings *)
Lemma compare_refl s : String.compare s s = Eq.
Proof.
  induction s as [|c s IH]; [done|]. cbn [String.compare].
  unfold Ascii.compare. by rewrite N.compare_refl.
Qed.

Lemma compare_app_block a b x y :
  String.length a = String.length b →
  String.compare (a +:+ x) (b +:+ y) =
  match String.compare a b with
  | Eq => String.compare x y
  | c => c
  end.
Proof.
  revert b. induction a as [|c a IH]; intros [|d b] Hlen; try done.
  rewrite !str_app_cons. cbn [String.compare].
  destruct (Ascii.compare c d); [|done..]. apply IH. by injection Hlen.
Qed.

Lemma str_lt_le a b : str_lt a b ↔ String.le a b ∧ a ≠ b.
Proof.
  unfold str_lt, String.le, String.leb. split.
  - intros H. rewrite H. split; [done|]. intros ->. by rewrite compare_refl in H.
  - intros [Hle Hne]. destruct (String.compare a b) eqn:Hc; [|done..].
    by apply String.compare_eq_iff in Hc.
Qed.

#[local] Instance str_lt_trans : Transitive str_lt.
Proof.
  intros a b c [Hab Hne]%str_lt_le [Hbc Hne']%str_lt_le. apply str_lt_le.
  split; [by etrans|]. intros ->. by apply Hne, (anti_symm String.le).
Qed.

Lemma compare_digit a b :
  Ascii.compare (digit a) (digit b) = Nat.compare (a mod 10) (b mod 10).
Proof.
  unfold digit.
  pose proof (Nat.mod_upper_bound a 10 ltac:(done)) as Ha.
  pose proof (Nat.mod_upper_bound b 10 ltac:(done)) as Hb.
  set (j := a mod 10) in *. set (k := b mod 10) in *. clearbody j k.
  do 10 (destruct j as [|j]; [do 10 (destruct k as [|k]; [by vm_compute|]); lia|]).
  lia.
Qed.

Lemma compare_by_digits a b :
  Nat.compare a b =
  match Nat.compare (a / 10) (b / 10) with
  | Eq => Nat.compare (a mod 10) (b mod 10)
  | c => c
  end.
Proof.
  pose proof (Nat.div_mod_eq a 10). pose proof (Nat.div_mod_eq b 10).
  pose proof (Nat.mod_upper_bound a 10 ltac:(done)).
  pose proof (Nat.mod_upper_bound b 10 ltac:(done)).
  destruct (Nat.compare_spec (a / 10) (b / 10));
    destruct (Nat.compare_spec (a mod 10) (b mod 10));
    destruct (Nat.compare_spec a b); try done; lia.
Qed.

Lemma compare_pad w a b :
  a < 10 ^ w → b < 10 ^ w →
  String.compare (pad w a) (pad w b) = Nat.compare a b.
Proof.
  revert a b. induction w as [|w IH]; intros a b Ha Hb.
  - simpl in *. assert (a = 0) as -> by lia. by assert (b = 0) as -> by lia.
  - cbn [pad]. rewrite compare_app_block by (by rewrite !length_pad).
    rewrite Nat.pow_succ_r' in Ha, Hb.
    rewrite IH by (apply Nat.Div0.div_lt_upper_bound; lia).
    cbn [String.compare]. rewrite compare_digit, (compare_by_digits a b).
    by destruct (Nat.compare (a mod 10) (b mod 10)).
Qed.

(** Dates print in the order of time *)
Lemma iso_year_calendar y : (0 ≤ y ≤ 9999)%Z → iso_year y = pad 4 (Z.to_nat y).
Proof. intros. unfold iso_year. by rewrite bool_decide_true. Qed.

Lemma length_iso d : calendar_date d → String.length (toISOString d) = 24.
Proof.
  intros (Hy & _). unfold toISOString. rewrite iso_year_calendar by done.
  by rewrite !str_length_app, !length_pad.
Qed.

Ltac compare_field :=
  rewrite compare_app_block by (by rewrite ?length_pad);
  rewrite ?compare_pad by (simpl; lia);
  rewrite ?compare_refl.

Lemma compare_iso d1 d2 :
  calendar_date d1 → calendar_date d2 → earlier d1 d2 →
  String.compare (toISOString d1) (toISOString d2) = Lt.
Proof.
  intros (Hy1 & ? & ? & ? & ? & ? & ?) (Hy2 & ? & ? & ? & ? & ? & ?) Hlt.
  unfold earlier, date_key in Hlt. cbn [lex_lt] in Hlt.
  unfold toISOString. rewrite !iso_year_calendar by done.
  compare_field.
  destruct (Nat.compare_spec (Z.to_nat (utcFullYear d1)) (Z.to_nat (utcFullYear d2)));
    [|done|exfalso; lia].
  do 2 compare_field.
  destruct (Nat.compare_spec (utcMonth d1 + 1) (utcMonth d2 + 1));
    [|done|exfalso; lia].
  do 2 compare_field.
  destruct (Nat.compare_spec (utcDate d1) (utcDate d2)); [|done|exfalso; lia].
  do 2 compare_field.
  destruct (Nat.compare_spec (utcHours d1) (utcHours d2)); [|done|exfalso; lia].
  do 2 compare_field.
  destruct (Nat.compare_spec (utcMinutes d1) (utcMinutes d2)); [|done|exfalso; lia].
  do 2 compare_field.
  destruct (Nat.compare_spec (utcSeconds d1) (utcSeconds d2)); [|done|exfalso; lia].
  do 2 compare_field.
  destruct (Nat.compare_spec (utcMilliseconds d1) (utcMilliseconds d2));
    [exfalso; lia|done|exfalso; lia].
Qed.

(** Names generated at a later time sort later, whatever the draws. *)
Lemma generateFilename_lt resource d1 draws1 d2 draws2 :
  calendar_date d1 → calendar_date d2 → earlier d1 d2 →
  str_lt (generateFilename resource d1 draws1) (generateFilename resource d2 draws2).
Proof.
  intros H1 H2 Hlt. unfold str_lt, generateFilename.
  rewrite compare_app_block, compare_refl by done.
  rewrite compare_app_block, compare_refl by done.
  rewrite compare_app_block, compare_refl by done.
  rewrite compare_app_block by (by rewrite !length_iso).
  by rewrite compare_iso.
Qed.

(** At one and the same time the draws decide. *)
Lemma generateFilename_tie resource d draws1 draws2 :
  String.compare (generateFilename resource d draws1)
                 (generateFilename resource d draws2)
  = String.compare (uid draws1) (uid draws2).
Proof.
  unfold generateFilename.
  do 5 (rewrite compare_app_block, compare_refl by done).
  rewrite compare_app_block by done. rewrite compare_refl.
  by destruct (String.compare (uid draws1) (uid draws2)).
Qed.

Section wp_rules.
Context {A B : Type}.

Lemma wp_ret (a : A) w Q E D : Q a w → wp (mret a) w Q E D.
Proof. done. Qed.

Lemma wp_bind (m : async A) (k : A → async B) w Q E D :
  wp m w (λ a w', wp (k a) w' Q E D) E D → wp (m ≫= k) w Q E D.
Proof. unfold wp, mbind, async_bind. by destruct (m w). Qed.

Lemma wp_try_catch (body : async A) handler w Q E D :
  wp body w Q (λ e w', wp (handler e) w' Q E D) D →
  wp (try_catch body handler) w Q E D.
Proof. unfold wp, try_catch. by destruct (body w). Qed.

Lemma wp_mono (c : async A) w (Q Q' : A → world → Prop)
    (E E' : error → world → Prop) (D D' : Prop) :
  wp c w Q E D → (∀ a w', Q a w' → Q' a w') → (∀ e w', E e w' → E' e w') →
  (D → D') → wp c w Q' E' D'.
Proof. unfold wp. destruct (c w); eauto. Qed.

Lemma wp_post (c : async A) w (Q Q' : A → world → Prop) E D :
  wp c w Q E D → (∀ a w', Q a w' → Q' a w') → wp c w Q' E D.
Proof. intros. eapply wp_mono; eauto. Qed.

Lemma wp_native call (effect : gmap string node → option (A * gmap string node))
    w Q E D :
  (∀ a m, effect (fs w) = Some (a, m) → faults w (tick w) call = false →
          Q a (set_fs m (next_tick w))) →
  E (Failed call) (next_tick w) →
  wp (native call effect) w Q E D.
Proof.
  intros HQ HE. unfold wp, native.
  destruct (faults w (tick w) call) eqn:Hf; [done|].
  destruct (effect (fs w)) as [[a m]|] eqn:He; auto.
Qed.
End wp_rules.

Lemma set_fs_id m w : fs w = m → set_fs m w = w.
Proof. intros <-. by destruct w. Qed.

Lemma wp_onerror e w (Q : () → world → Prop) E D :
  Q () (report e w) → wp (onerror e) w Q E D.
Proof. done. Qed.

Lemma wp_assign_truncating b w (Q : () → world → Prop) E D :
  Q () (set_truncating b w) → wp (assign_truncating b) w Q E D.
Proof. done. Qed.

Lemma wp_Promise_all (I : world → Prop) ps w E D :
  I w →
  Forall (λ p : async (), ∀ w', I w' → wp p w' (λ _ w'', I w'') E D) ps →
  wp (Promise_all ps) w (λ _ w', I w') E D.
Proof.
  intros Hw Hps. revert w Hw. induction Hps as [|p ps Hp _ IH]; intros w Hw.
  - done.
  - simpl. apply wp_bind. eapply wp_post; [by apply Hp|].
    intros [] w' Hw'. by apply IH.
Qed.

(** remove never rejects *)
Lemma wp_remove id w (Q : () → world → Prop) E D :
  (faults w (tick w) (DeleteAsync id) = false → is_Some (fs w !! id) →
   Q () (set_fs (without id (fs w)) (next_tick w))) →
  Q () (report (Failed (DeleteAsync id)) (next_tick w)) →
  wp (remove id) w Q E D.
Proof.
  intros Hok Hfail. apply wp_try_catch, wp_native.
  - intros [] m Hm Hf. destruct (fs w !! id) eqn:Hid; simplify_eq. eauto.
  - by apply wp_onerror.
Qed.

Lemma wp_fulfilled {A} (c : async A) w Q :
  wp c w Q (λ _ _, False) False ↔ ∃ a w', c w = Fulfilled a w' ∧ Q a w'.
Proof.
  unfold wp. destruct (c w) as [a w'| |]; split; try done.
  - eauto.
  - by intros (? & ? & [= <- <-] & ?).
  - by intros (? & ? & ? & ?).
  - by intros (? & ? & ? & ?).
Qed.

Lemma wp_truncate_pass (I : world → Prop) this w E D :
  (∀ w', I w' → I (next_tick w')) →
  (∀ w' e, I w' → I (report e w')) →
  (∀ w' b, I w' → I (set_truncating b w')) →
  (∀ f w', filenameRe_test f = true → has_slash f = false →
     f ∈ take (length (queue_of this (fs w)) - MAX_ITEMS) (queue_of this (fs w)) →
     I w' → I (set_fs (without (entry this f) (fs w')) w')) →
  I w →
  wp (_truncate_pass this) w (λ _ w', I w' ∧ _truncating w' = false) E D.
Proof.
  intros Htick Hrep Hflag Hdel Hw.
  apply wp_try_catch, wp_bind, wp_native.
  - intros names m Hm _. destruct (fs w !! _path this) as [[]|]; simplify_eq.
    rewrite set_fs_id by done. cbv zeta. case_bool_decide as Hd.
    + apply wp_assign_truncating. split; [|done]. apply Hflag, Htick, Hw.
    + apply wp_bind.
      eapply (wp_post _ _ (λ _ w', I w')); [|intros [] w' Hw'].
      2:{ apply wp_assign_truncating. split; [by apply Hflag|done]. }
      apply wp_Promise_all; [apply Htick, Hw|].
      apply Forall_fmap, Forall_forall. intros f Hf w' Hw'. simpl.
      apply wp_remove; [intros _ _|by apply Hrep, Htick].
      change (payloads_of (children (_path this) (fs w)))
        with (queue_of this (fs w)) in Hf, Hd.
      replace (Z.to_nat _) with (length (queue_of this (fs w)) - MAX_ITEMS)%nat
        in Hf by lia.
      assert (f ∈ queue_of this (fs w)) as Hin.
      { apply elem_of_take in Hf as (i & Hi & _). by eapply list_elem_of_lookup_2. }
      apply elem_of_queue_of in Hin as (? & ? & _).
      apply (Hdel f (next_tick w')); [done..|]. by apply Htick.
  - apply wp_bind, wp_assign_truncating, wp_onerror.
    split; [|done]. apply Hrep, Hflag, Htick, Hw.
Qed.

(** The pass does not depend on where its listing is awaited: it is the
    pass from the promise that the call of the listing has left. *)
Lemma truncate_from_called this (listing : async (list string)) w :
  _truncate_from this listing w =
  (p ← called listing; _truncate_from this (await p)) w.
Proof.
  unfold _truncate_from, try_catch, mbind, async_bind, called, await.
  by destruct (listing w).
Qed.

Lemma wp_truncate_from (I : world → Prop) this p w E D :
  (∀ w', I w' → I (next_tick w')) →
  (∀ w' e, I w' → I (report e w')) →
  (∀ w' b, I w' → I (set_truncating b w')) →
  (∀ names f w', p = inr names → filenameRe_test f = true →
     f ∈ take (length (payloads_of names) - MAX_ITEMS) (payloads_of names) →
     I w' → I (set_fs (without (entry this f) (fs w')) w')) →
  I w →
  wp (_truncate_from this (await p)) w (λ _ w', I w' ∧ _truncating w' = false) E D.
Proof.
  intros Htick Hrep Hflag Hdel Hw. apply wp_try_catch, wp_bind.
  destruct p as [e|names]; unfold wp at 1, await.
  - apply wp_bind, wp_assign_truncating, wp_onerror.
    split; [|done]. by apply Hrep, Hflag.
  - cbv zeta. case_bool_decide as Hd.
    + apply wp_assign_truncating. split; [|done]. by apply Hflag.
    + apply wp_bind.
      eapply (wp_post _ _ (λ _ w', I w')); [|intros [] w' Hw'].
      2:{ apply wp_assign_truncating. split; [by apply Hflag|done]. }
      apply wp_Promise_all; [done|].
      apply Forall_fmap, Forall_forall. intros f Hf w' Hw'. simpl.
      apply wp_remove; [intros _ _|by apply Hrep, Htick].
      replace (Z.to_nat _) with (length (payloads_of names) - MAX_ITEMS)%nat
        in Hf by lia.
      apply (Hdel names f (next_tick w')); [done| |done|by apply Htick].
      apply elem_of_take in Hf as (i & Hi & _).
      apply list_elem_of_lookup_2, elem_of_payloads_of in Hi. by destruct Hi.
Qed.

Lemma wp_JSON_parse t w (Q : json → world → Prop) (E : error → world → Prop) D :
  match t with
  | Stringified v => Q v w
  | Malformed _ => E SyntaxError w
  end → wp (JSON_parse t) w Q E D.
Proof. by destruct t. Qed.

Lemma wp_peek (I : world → Prop) this fuel w :
  (∀ w', I w' → I (next_tick w')) →
  (∀ w' f, I w' → I (report (Failed (DeleteAsync (entry this f))) w')) →
  (∀ w', I w' → I (report (Failed (ReadDirectoryAsync (_path this))) w')) →
  (∀ f w', filenameRe_test f = true → has_slash f = false →
     I w' → I (set_fs (without (entry this f) (fs w')) w')) →
  I w →
  wp (peek this fuel) w (λ r w', I w' ∧ peeked this r w') (λ _ _, False) True.
Proof.
  intros Htick Hdel Hdir Hrm. revert w.
  induction fuel as [|fuel IH]; intros w Hw; [done|].
  cbn [peek]. apply wp_try_catch, wp_bind, wp_native.
  - intros names m Hm _. destruct (fs w !! _path this) as [[]|]; simplify_eq.
    rewrite set_fs_id by done.
    destruct (head _) as [f|] eqn:Hf; [|apply wp_ret; split; [by apply Htick|done]].
    apply head_Some_elem_of, elem_of_payloads_of in Hf
      as [Hre (Hsl & _)%elem_of_children].
    case_bool_decide; [apply wp_ret; split; [by apply Htick|done]|].
    assert (wp (remove (entry this f) ;; peek this fuel) (next_tick (next_tick w))
              (λ r w', I w' ∧ peeked this r w')
              (λ e w', wp (onerror e ;; mret None) w'
                         (λ r w'', I w'' ∧ peeked this r w'') (λ _ _, False) True)
              True) as Hretry.
    { apply wp_bind, wp_remove.
      - intros _ _. eapply wp_mono; [apply IH| |done..]; [|done].
        apply (Hrm f (next_tick (next_tick (next_tick w)))); auto.
      - eapply wp_mono; [apply IH| |done..]; [|done].
        apply Hdel; auto. }
    apply wp_try_catch, wp_bind, wp_native; [|done].
    intros t m Hm _. simpl in Hm.
    destruct (fs w !! entry this f) as [[t'|]|] eqn:Ht; simplify_eq.
    rewrite set_fs_id by done.
    apply wp_bind, wp_JSON_parse. destruct t as [v|s]; [|done].
    apply wp_ret. split; [auto|]. by exists f.
  - apply wp_bind, wp_onerror, wp_ret. split; [|done]. apply Hdir, Htick, Hw.
Qed.

Lemma truncate_pass_releases this w :
  ∃ w', _truncate_pass this w = Fulfilled () w' ∧ _truncating w' = false.
Proof.
  destruct (proj1 (wp_fulfilled (_truncate_pass this) w
              (λ _ w', True ∧ _truncating w' = false))) as ([] & w' & ? & _ & ?);
    [by apply wp_truncate_pass|eauto].
Qed.

Lemma settle_releases this w :
  ∃ w', settle this w = Fulfilled () w'
        ∧ (is_Some (in_flight w) → _truncating w' = false)
        ∧ (in_flight w = None → w' = w)
        ∧ in_flight w' = None ∧ faults w' = faults w.
Proof.
  unfold settle. destruct (in_flight w) as [p|] eqn:Hp.
  2:{ exists w. by split_and!. }
  destruct (proj1 (wp_fulfilled (_truncate_from this (await p)) (set_in_flight None w)
              (λ _ w', (in_flight w' = None ∧ faults w' = faults w)
                       ∧ _truncating w' = false)))
    as ([] & w' & ? & [? ?] & ?).
  - apply wp_truncate_from; try done; by intros ? ? [? ?].
  - exists w'. by split_and!.
Qed.

(** Claim C5, as the code has it. The errors that [peek] hands to [onerror] are
    rejections of the directory listing and of [deleteAsync], and no others:
    an entry that cannot be read or parsed is removed without a report of
    its own. *)
Theorem peek_reports_only_failed_calls this fuel w r w' :
  peek this fuel w = Fulfilled r w' →
  ∃ new, reported w' = reported w ++ new
         ∧ Forall listing_or_delete_failure new.
Proof.
  intros Hpeek.
  pose proof (wp_peek
    (λ w', ∃ new, reported w' = reported w ++ new
                  ∧ Forall listing_or_delete_failure new) this fuel w) as Hwp.
  unfold wp in Hwp. rewrite Hpeek in Hwp. apply Hwp.
  - done.
  - intros w1 f (new & Hnew & Hall). exists (new ++ [Failed (DeleteAsync (entry this f))]).
    simpl. rewrite Hnew, (assoc_L (++)). split; [done|].
    apply Forall_app. split; [done|]. repeat constructor. eexists; eauto.
  - intros w1 (new & Hnew & Hall).
    exists (new ++ [Failed (ReadDirectoryAsync (_path this))]).
    simpl. rewrite Hnew, (assoc_L (++)). split; [done|].
    apply Forall_app. split; [done|]. repeat constructor. eexists; eauto.
  - done.
  - exists []. by rewrite (right_id_L [] (++)).
Qed.

Lemma remove_outcome id w :
  ∃ w', remove id w = Fulfilled () w' ∧ removal id w w'
        ∧ _truncating w' = _truncating w ∧ faults w' = faults w.
Proof.
  destruct (proj1 (wp_fulfilled (remove id) w
    (λ _ w', removal id w w' ∧ _truncating w' = _truncating w
             ∧ faults w' = faults w))) as ([] & w' & ? & ?); [|eauto].
  apply wp_remove.
  - intros _ ?. split; [|done]. by left.
  - split; [|done]. right. eauto.
Qed.

Lemma update_outcome id updates w :
  ∃ w', update id updates w = Fulfilled () w' ∧ rewrite_of id updates w w'
        ∧ _truncating w' = _truncating w ∧ faults w' = faults w.
Proof.
  destruct (proj1 (wp_fulfilled (update id updates) w
    (λ _ w', rewrite_of id updates w w' ∧ _truncating w' = _truncating w
             ∧ faults w' = faults w))) as ([] & w' & ? & ?); [|eauto].
  assert (∀ w1 e, fs w1 = fs w → reported w1 = reported w →
            _truncating w1 = _truncating w → faults w1 = faults w →
            wp (onerror e) w1
              (λ _ w', rewrite_of id updates w w' ∧ _truncating w' = _truncating w
                       ∧ faults w' = faults w) (λ _ _, False) False) as Hfail.
  { intros w1 e Hfs Hrep ??. apply wp_onerror. split; [|done]. right.
    split; [done|]. exists e. simpl. by rewrite Hrep. }
  apply wp_try_catch, wp_bind, wp_native; [|by apply Hfail].
  intros t m Hm _. destruct (fs w !! id) as [[t'|]|] eqn:Ht; simplify_eq.
  rewrite set_fs_id by done.
  apply wp_bind, wp_JSON_parse. destruct t as [v|s]; [|by apply Hfail].
  apply wp_native; [|by apply Hfail].
  intros [] m Hm _. simpl in Hm. split; [|done]. left. exists v.
  destruct (split_path id) as [[d n]|]; [|done].
  rewrite Ht in Hm. destruct (fs w !! d) as [[]|]; try done.
  by case_bool_decide; simplify_eq.
Qed.

Lemma wp_init_exact this w (Q : () → world → Prop) E D :
  (∀ w', fs w' = <[_path this := Directory]> (fs w) →
         fs w' !! _path this = Some Directory → reported w' = reported w →
         _truncating w' = _truncating w → faults w' = faults w →
         in_flight w' = in_flight w → Q () w') →
  (∀ e w', fs w' = fs w → reported w' = reported w →
           _truncating w' = _truncating w → faults w' = faults w →
           in_flight w' = in_flight w → E e w') →
  wp (init this) w Q E D.
Proof.
  intros HQ HE. apply wp_bind, wp_native; [|by apply HE].
  intros [ex isdir] m Hm _.
  assert (m = fs w) as -> by (by destruct (fs w !! _path this) as [[]|]; simplify_eq).
  rewrite set_fs_id by done. simpl.
  destruct (fs w !! _path this) as [[]|] eqn:Hp; simplify_eq; simpl.
  - apply wp_native; [|by apply HE]. intros [] m. simpl. by rewrite Hp.
  - apply wp_ret, HQ; try done. simpl. by rewrite insert_id.
  - apply wp_native; [|by apply HE]. intros [] m. simpl. rewrite Hp.
    intros [= <-] _. apply HQ; try done. simpl. by rewrite lookup_insert_eq.
Qed.

Lemma truncate_unawaited_enters this w :
  _truncating w = false →
  ∃ p, called (FileSystem.readDirectoryAsync (_path this)) (set_truncating true w)
       = Fulfilled p (next_tick (set_truncating true w))
       ∧ _truncate_unawaited this w =
         Fulfilled () (set_in_flight (Some p) (next_tick (set_truncating true w))).
Proof.
  intros Hw. unfold _truncate_unawaited, mbind, async_bind, _truncate_guard.
  rewrite Hw. unfold called, FileSystem.readDirectoryAsync, native.
  destruct (faults _ _ _); [by eexists|]. cbn [fs set_truncating].
  destruct (fs w !! _path this) as [[]|]; by eexists.
Qed.

Lemma truncate_unawaited_skipped this w :
  _truncating w = true → _truncate_unawaited this w = Fulfilled () w.
Proof.
  intros Hw. unfold _truncate_unawaited, mbind, async_bind, _truncate_guard.
  by rewrite Hw.
Qed.

Lemma enqueue_outcome this req now draws w :
  ∃ w', enqueue this req now draws w = Fulfilled () w'
        ∧ addition this (generateFilename (_resource this) now draws) req w w'
        ∧ faults w' = faults w ∧ flight w w'.
Proof.
  destruct (proj1 (wp_fulfilled (enqueue this req now draws) w
    (λ _ w', addition this (generateFilename (_resource this) now draws) req w w'
             ∧ faults w' = faults w ∧ flight w w'))) as ([] & w' & ? & ?); [|eauto].
  apply wp_try_catch, wp_bind, wp_init_exact.
  - intros w1 Hfs Hdir Hrep Htr Hfl Hin. apply wp_bind, wp_native.
    + intros [] m Hm _.
      assert (m = <[entry this (generateFilename (_resource this) now draws)
                    := File (JSON_stringify (with_retries_0 req))]>
                    (<[_path this := Directory]> (fs w))) as ->.
      { simpl in Hm. destruct (split_path _) as [[d n]|]; [|done].
        destruct (fs w1 !! d) as [[]|]; try done.
        destruct (fs w1 !! entry this _) as [[]|]; try done;
          case_bool_decide; simplify_eq; by rewrite Hfs. }
      unfold wp. destruct (_truncating w) eqn:Hw.
      * rewrite truncate_unawaited_skipped by (simpl; congruence).
        split_and!; [left; simpl|done|left; simpl]; split_and!; congruence.
      * destruct (truncate_unawaited_enters this
                    (set_fs (<[entry this (generateFilename (_resource this) now draws)
                               := File (JSON_stringify (with_retries_0 req))]>
                               (<[_path this := Directory]> (fs w))) (next_tick w1)))
          as (p & _ & ->); [simpl; congruence|].
        split_and!; [left; simpl; by split_and!|done|right; simpl; by eauto].
    + apply wp_onerror. split_and!; [right|done|left; by simpl].
      split; [by right|]. eexists. simpl. by rewrite Hrep.
  - intros e w1 Hfs Hrep Htr Hfl Hin. apply wp_onerror.
    split_and!; [right|done|left; by simpl].
    split; [by left|]. eexists. simpl. by rewrite Hrep.
Qed.

Lemma run_single_flight this es w :
  single_flight w →
  ∃ w', run this es w = Fulfilled () w' ∧ single_flight w'.
Proof.
  revert w. induction es as [|[req now draws|] es IH]; intros w Hw.
  - by exists w.
  - destruct (enqueue_outcome this req now draws w) as (w1 & Hrun & _ & _ & Hfl).
    destruct (IH w1) as (w' & Hrun' & Hw').
    { unfold single_flight in *. destruct Hfl as [[-> ->]|(_ & -> & ?)]; [done|].
      by split. }
    exists w'. cbn [run step]. unfold mbind, async_bind. by rewrite Hrun.
  - destruct (settle_releases this w) as (w1 & Hrun & Hrel & Hsame & Hnone & _).
    destruct (IH w1) as (w' & Hrun' & Hw').
    { unfold single_flight in *. destruct (in_flight w) as [p|] eqn:Hp.
      - rewrite Hnone, Hrel by (by eexists). split; [intros [=]|intros [? [=]]].
      - rewrite Hsame by done. by rewrite Hp. }
    exists w'. cbn [run step]. unfold mbind, async_bind. by rewrite Hrun.
Qed.

(** Claim C9, the single-flight guard of truncation. When [_truncating] is
    clear, the call of [_truncate] that [enqueue] does not await sets the
    flag and leaves a pass in flight, without touching the files; awaited,
    the call runs a pass and ends with the flag clear. When the flag is
    set, a call of [_truncate], awaited or not, is fulfilled at once and
    leaves the world as it is: no call into the file system, no removal,
    and no second pass in flight. A pass in flight that is resumed ends
    with the flag clear and nothing in flight, from every world and
    whatever its listing was and the device rejects: after removals, below
    the limit, or after a failure; so does a pass that nothing interrupts.
    And along every schedule of enqueues and resumed passes, on every
    device, a pass is in flight exactly when the flag is set, if that was
    so at the start. *)
Theorem truncate_single_flight this w :
  (_truncating w = false →
     (∃ w' listing,
        _truncate_unawaited this w = Fulfilled () w'
        ∧ _truncating w' = true ∧ in_flight w' = Some listing
        ∧ fs w' = fs w ∧ reported w' = reported w)
     ∧ (∃ w', _truncate this w = Fulfilled () w' ∧ _truncating w' = false))
  ∧ (_truncating w = true →
       _truncate_unawaited this w = Fulfilled () w
       ∧ _truncate this w = Fulfilled () w)
  ∧ (∀ listing, single_flight w → in_flight w = Some listing →
       _truncate_unawaited this w = Fulfilled () w
       ∧ _truncate this w = Fulfilled () w)
  ∧ (∀ listing, in_flight w = Some listing →
       ∃ w', settle this w = Fulfilled () w'
             ∧ _truncating w' = false ∧ in_flight w' = None)
  ∧ (∃ w', _truncate_pass this w = Fulfilled () w' ∧ _truncating w' = false)
  ∧ (∀ es, single_flight w →
       ∃ w', run this es w = Fulfilled () w' ∧ single_flight w').
Proof.
  split_and!.
  - intros Hw. split.
    + destruct (truncate_unawaited_enters this w Hw) as (p & _ & ->).
      by eexists _, _.
    + unfold _truncate, mbind, async_bind, _truncate_guard. rewrite Hw.
      apply truncate_pass_releases.
  - intros Hw. split; [by apply truncate_unawaited_skipped|].
    unfold _truncate, mbind, async_bind, _truncate_guard. by rewrite Hw.
  - intros p [_ Hw] Hp. rewrite Hp in Hw.
    split; [apply truncate_unawaited_skipped; by eauto|].
    unfold _truncate, mbind, async_bind, _truncate_guard. by rewrite Hw by eauto.
  - intros p Hp. destruct (settle_releases this w) as (w' & ? & Hrel & _ & ? & _).
    exists w'. split_and!; [done| |done]. apply Hrel. by rewrite Hp.
  - apply truncate_pass_releases.
  - intros es. apply run_single_flight.
Qed.


(** Paths of the queue *)
Lemma entry_ne_path this f : entry this f ≠ _path this.
Proof.
  intros H. apply (f_equal String.length) in H. unfold entry in H.
  rewrite !str_length_app in H. simpl in H. lia.
Qed.

Lemma strip_prefix_longer p r : r ≠ "" → strip_prefix (p +:+ r) p = None.
Proof.
  intros Hr. destruct (strip_prefix _ p) as [x|] eqn:Hx; [|done].
  apply strip_prefix_Some, (f_equal String.length) in Hx.
  rewrite !str_length_app in Hx. destruct r; [done|]. simpl in Hx. lia.
Qed.

Lemma lookup_without_path this f m :
  without (entry this f) m !! _path this = m !! _path this.
Proof.
  destruct (m !! _path this) as [x|] eqn:Hx; [|by apply lookup_without_None].
  apply lookup_without_Some. split_and!; [done| |].
  - intros H. by apply (entry_ne_path this f).
  - unfold entry. rewrite !str_app_assoc. by apply strip_prefix_longer.
Qed.

Lemma entry_inj this f g : entry this f = entry this g → f = g.
Proof. apply entry_name_inj. Qed.

(** How the queue changes with the files *)
Section queue_changes.
Variable this : UndeliveredPayloadQueue.
Implicit Types m : gmap string node.

Lemma listed_insert_other m k x n :
  k ≠ entry this n → listed this (<[k := x]> m) n ↔ listed this m n.
Proof. intros Hk. unfold listed. by rewrite lookup_insert_ne. Qed.

Lemma queue_of_insert_path m x :
  queue_of this (<[_path this := x]> m) = queue_of this m.
Proof.
  apply queue_of_ext. intros n. apply listed_insert_other.
  intros H. by apply (entry_ne_path this n).
Qed.

Lemma queue_of_insert_existing m k x :
  is_Some (m !! k) → queue_of this (<[k := x]> m) = queue_of this m.
Proof.
  intros Hk. apply queue_of_ext. intros n. unfold listed.
  destruct (decide (k = entry this n)) as [->|].
  - rewrite lookup_insert_eq. split; intros (? & ? & ?); eauto.
  - by rewrite lookup_insert_ne.
Qed.

Lemma queue_of_insert_nonmatching m f x :
  filenameRe_test f = false →
  queue_of this (<[entry this f := x]> m) = queue_of this m.
Proof.
  intros Hf. apply queue_of_ext. intros n. unfold listed.
  destruct (decide (f = n)) as [->|].
  - rewrite Hf. split; by intros (? & _).
  - rewrite lookup_insert_ne; [done|]. by intros ?%entry_inj.
Qed.

Lemma queue_of_insert_last m n x :
  filenameRe_test n = true → has_slash n = false →
  Forall (λ f, str_lt f n) (queue_of this m) →
  queue_of this (<[entry this n := x]> m) = queue_of this m ++ [n].
Proof.
  intros Hre Hsl Hlt. apply queue_of_unique.
  - apply Sorted_snoc; [apply Sorted_queue_of|].
    destruct (queue_of this m) as [|a l _] using rev_ind; [constructor|].
    constructor.
    apply Forall_app in Hlt as [_ Hlt%Forall_inv].
    by apply str_lt_le in Hlt as [].
  - apply NoDup_app. split_and!; [apply NoDup_queue_of| |apply NoDup_singleton].
    intros f Hf ->%list_elem_of_singleton.
    rewrite Forall_forall in Hlt. apply Hlt, str_lt_le in Hf as [_ ?]. done.
  - intros f. rewrite elem_of_app, list_elem_of_singleton, elem_of_queue_of.
    unfold listed. destruct (decide (f = n)) as [->|].
    + rewrite lookup_insert_eq. split; [intros _; eauto|by right].
    + rewrite lookup_insert_ne by (by intros ?%entry_inj).
      split; [by intros [?|?]|by left].
Qed.

Lemma queue_of_without_head m a l :
  queue_of this m = a :: l → queue_of this (without (entry this a) m) = l.
Proof.
  intros Hq. pose proof (Sorted_queue_of this m) as Hs.
  pose proof (NoDup_queue_of this m) as Hn. rewrite Hq in Hs, Hn.
  apply NoDup_cons in Hn as [Ha Hn].
  apply queue_of_unique; [by eapply Sorted_inv|done|].
  intros f. unfold listed. destruct (decide (f = a)) as [->|Hfa].
  - rewrite lookup_without_same. split; [done|]. by intros (_ & _ & []).
  - assert (f ∈ l ↔ listed this m f) as ->.
    { rewrite <-elem_of_queue_of, Hq, elem_of_cons.
      split; [by right|by intros [?|?]]. }
    unfold listed. split.
    + intros (? & ? & ?). by rewrite lookup_without_entry.
    + intros (? & Hsl & ?). by rewrite lookup_without_entry in *.
Qed.
End queue_changes.

(** Runs on a calm device *)
Lemma native_ok {A} call (effect : gmap string node → option (A * gmap string node))
    w a m :
  faults w (tick w) call = false → effect (fs w) = Some (a, m) →
  native call effect w = Fulfilled a (set_fs m (next_tick w)).
Proof. intros Hf He. unfold native. by rewrite Hf, He. Qed.

Lemma native_fault {A} call (effect : gmap string node → option (A * gmap string node)) w :
  faults w (tick w) call = true →
  native call effect w = Rejected (Failed call) (next_tick w).
Proof. intros Hf. unfold native. by rewrite Hf. Qed.

Lemma native_undefined {A} call (effect : gmap string node → option (A * gmap string node)) w :
  effect (fs w) = None →
  native call effect w = Rejected (Failed call) (next_tick w).
Proof. intros He. unfold native. rewrite He. by destruct (faults _ _ _). Qed.

Lemma readDirectoryAsync_ok p w :
  faults w (tick w) (ReadDirectoryAsync p) = false →
  fs w !! p = Some Directory →
  FileSystem.readDirectoryAsync p w = Fulfilled (children p (fs w)) (next_tick w).
Proof.
  intros Hf Hp. unfold FileSystem.readDirectoryAsync.
  erewrite native_ok; [|done|by rewrite Hp]. by rewrite set_fs_id.
Qed.

Lemma readAsStringAsync_ok p t w :
  faults w (tick w) (ReadAsStringAsync p) = false →
  fs w !! p = Some (File t) →
  FileSystem.readAsStringAsync p w = Fulfilled t (next_tick w).
Proof.
  intros Hf Hp. unfold FileSystem.readAsStringAsync.
  erewrite native_ok; [|done|by rewrite Hp]. by rewrite set_fs_id.
Qed.

Lemma remove_ok id w :
  faults w (tick w) (DeleteAsync id) = false → is_Some (fs w !! id) →
  remove id w = Fulfilled () (set_fs (without id (fs w)) (next_tick w)).
Proof.
  intros Hf [x Hx]. unfold remove, try_catch, FileSystem.deleteAsync.
  erewrite native_ok; [done|done|by rewrite Hx].
Qed.

Lemma remove_missing id w :
  fs w !! id = None →
  remove id w = Fulfilled () (report (Failed (DeleteAsync id)) (next_tick w)).
Proof.
  intros Hid. unfold remove, try_catch, FileSystem.deleteAsync.
  rewrite native_undefined; [done|by rewrite Hid].
Qed.

Lemma remove_fault id w :
  faults w (tick w) (DeleteAsync id) = true →
  remove id w = Fulfilled () (report (Failed (DeleteAsync id)) (next_tick w)).
Proof.
  intros Hf. unfold remove, try_catch, FileSystem.deleteAsync.
  by rewrite native_fault.
Qed.

Section peek_steps.
Variable this : UndeliveredPayloadQueue.

(** The first call of [peek] when the listing succeeds. *)
Lemma peek_listing fuel w :
  faults w (tick w) (ReadDirectoryAsync (_path this)) = false →
  fs w !! _path this = Some Directory →
  peek this (S fuel) w =
  match head (queue_of this (fs w)) with
  | None => Fulfilled None (next_tick w)
  | Some f =>
      try_catch
        (try_catch
           (payloadJson ← FileSystem.readAsStringAsync (entry this f);
            payload ← JSON_parse payloadJson;
            mret (Some (entry this f, payload)))
           (λ e, remove (entry this f) ;; peek this fuel))
        (λ e, onerror e ;; mret None) (next_tick w)
  end.
Proof.
  intros Hf Hp. cbn [peek]. unfold try_catch at 1, mbind at 1, async_bind at 1.
  rewrite readDirectoryAsync_ok by done.
  change (payloads_of (children (_path this) (fs w))) with (queue_of this (fs w)).
  destruct (head _) as [f|] eqn:Hhd; [|done].
  rewrite bool_decide_false; [done|].
  apply head_Some_elem_of, elem_of_queue_of in Hhd as [Hre _].
  by apply filenameRe_nonempty.
Qed.

Lemma peek_listing_fails fuel w :
  faults w (tick w) (ReadDirectoryAsync (_path this)) = true
  ∨ fs w !! _path this ≠ Some Directory →
  peek this (S fuel) w =
  Fulfilled None (report (Failed (ReadDirectoryAsync (_path this))) (next_tick w)).
Proof.
  intros H. cbn [peek]. unfold try_catch at 1, mbind at 1, async_bind at 1.
  unfold FileSystem.readDirectoryAsync.
  destruct H as [Hf|Hp]; [by rewrite native_fault|].
  rewrite native_undefined; [done|]. by destruct (fs w !! _path this) as [[]|].
Qed.

Lemma peek_empty fuel w :
  calm w → fs w !! _path this = Some Directory → queue_of this (fs w) = [] →
  peek this (S fuel) w = Fulfilled None (next_tick w).
Proof. intros Hc Hp Hq. rewrite peek_listing by done. by rewrite Hq. Qed.

Lemma peek_head fuel w a l v :
  calm w → fs w !! _path this = Some Directory →
  queue_of this (fs w) = a :: l →
  fs w !! entry this a = Some (File (Stringified v)) →
  peek this (S fuel) w = Fulfilled (Some (entry this a, v)) (next_tick (next_tick w)).
Proof.
  intros Hc Hp Hq Ha. rewrite peek_listing by done. rewrite Hq. simpl.
  unfold try_catch, mbind, async_bind.
  rewrite (readAsStringAsync_ok _ (Stringified v)); [done|apply Hc|done].
Qed.

(** The head cannot be read or parsed: it is removed and [peek] calls
    itself. *)
Lemma peek_retry fuel w a l x :
  faults w (tick w) (ReadDirectoryAsync (_path this)) = false →
  fs w !! _path this = Some Directory →
  queue_of this (fs w) = a :: l →
  fs w !! entry this a = Some x → unreadable x →
  peek this (S fuel) w =
  try_catch (remove (entry this a) ;; peek this fuel) (λ e, onerror e ;; mret None)
    (next_tick (next_tick w)).
Proof.
  intros Hf Hp Hq Ha Hx. rewrite peek_listing by done. rewrite Hq. simpl.
  assert ((payloadJson ← FileSystem.readAsStringAsync (entry this a);
           payload ← JSON_parse payloadJson;
           mret (Some (entry this a, payload))) (next_tick w)
          = Rejected (if faults w (S (tick w)) (ReadAsStringAsync (entry this a))
                      then Failed (ReadAsStringAsync (entry this a))
                      else match x with
                           | File _ => SyntaxError
                           | Directory => Failed (ReadAsStringAsync (entry this a))
                           end)
              (next_tick (next_tick w))) as Hread.
  { unfold mbind, async_bind, FileSystem.readAsStringAsync, native. simpl.
    destruct (faults w (S (tick w)) _); [done|]. rewrite Ha.
    by destruct x as [[]|]. }
  unfold try_catch in *. by rewrite Hread.
Qed.
End peek_steps.

Lemma directory_or_not (m : gmap string node) p :
  m !! p = Some Directory ∨ m !! p ≠ Some Directory.
Proof. destruct (m !! p) as [[]|]; auto. Qed.

Lemma listed_head this m a l :
  queue_of this m = a :: l →
  filenameRe_test a = true ∧ has_slash a = false ∧ is_Some (m !! entry this a).
Proof. intros Hq. apply elem_of_queue_of. rewrite Hq. by left. Qed.

(** Claim C3, self-healing peek. On a device that rejects no call, when the
    oldest entry of the queue is corrupt and the next one is valid, [peek]
    returns the valid entry; afterwards the corrupt entry is gone and the
    valid one heads the queue. *)
Theorem peek_self_heals this w a b rest s v fuel :
  calm w →
  fs w !! _path this = Some Directory →
  queue_of this (fs w) = a :: b :: rest →
  fs w !! entry this a = Some (File (Malformed s)) →
  fs w !! entry this b = Some (File (Stringified v)) →
  ∃ w', peek this (S (S fuel)) w = Fulfilled (Some (entry this b, v)) w'
        ∧ fs w' !! entry this a = None
        ∧ queue_of this (fs w') = b :: rest.
Proof.
  intros Hc Hp Hq Ha Hb.
  pose proof (NoDup_queue_of this (fs w)) as Hn. rewrite Hq in Hn.
  apply NoDup_cons in Hn as [Hab _].
  pose proof (queue_of_without_head this _ _ _ Hq) as Hq'.
  destruct (listed_head this _ _ _ Hq') as (_ & Hsl & _).
  rewrite (peek_retry this _ w a _ (File (Malformed s))) by done.
  unfold try_catch, mbind, async_bind.
  rewrite remove_ok; [|apply Hc|by eexists].
  erewrite peek_head; [|apply Hc|by rewrite <-Hp; apply lookup_without_path|apply Hq'|].
  - eexists. split; [done|]. split; [apply lookup_without_same|done].
  - simpl. rewrite lookup_without_entry; [done..|]. intros ->. apply Hab. by left.
Qed.

(** Claim C6 fails on the code when deletion fails: if the oldest entry cannot
    be read or parsed and the device rejects every [deleteAsync] of it while
    the directory can be listed, then [peek] calls itself again in a world
    with the same files, and is still pending after any number of calls. *)
Theorem peek_spins_when_delete_fails this w a l x :
  (∀ n, faults w n (ReadDirectoryAsync (_path this)) = false) →
  (∀ n, faults w n (DeleteAsync (entry this a)) = true) →
  fs w !! _path this = Some Directory →
  queue_of this (fs w) = a :: l →
  fs w !! entry this a = Some x → unreadable x →
  ∀ fuel, peek this fuel w = Pending.
Proof.
  intros Hdir Hdel Hp Hq Ha Hx fuel. revert w Hdir Hdel Hp Hq Ha.
  induction fuel as [|fuel IH]; intros w Hdir Hdel Hp Hq Ha; [done|].
  rewrite (peek_retry this _ w a l x) by done.
  unfold try_catch, mbind, async_bind.
  rewrite remove_fault by apply Hdel.
  by rewrite IH.
Qed.

(** X1. On a device that rejects no call, [peek] settles after at most one
    call per entry of the queue and one more, with [null] or a payload that
    is stored under the returned id. *)
Lemma peek_settles this w :
  calm w →
  ∃ r w', peek this (S (length (queue_of this (fs w)))) w = Fulfilled r w'
          ∧ peeked this r w'.
Proof.
  intros Hc. remember (length (queue_of this (fs w))) as n eqn:Hn.
  revert w Hc Hn. induction n as [|n IH]; intros w Hc Hn.
  - destruct (directory_or_not (fs w) (_path this)) as [Hp|Hp].
    + rewrite peek_empty; [by eexists _, _|done..|]. by apply nil_length_inv.
    + rewrite peek_listing_fails by auto. by eexists _, _.
  - destruct (queue_of this (fs w)) as [|a l] eqn:Hq; [done|].
    injection Hn as ->. cbn [length].
    destruct (directory_or_not (fs w) (_path this)) as [Hp|Hp];
      [|rewrite peek_listing_fails by auto; by eexists _, _].
    destruct (listed_head this _ _ _ Hq) as (Hre & Hsl & [x Hx]).
    destruct x as [[v|s]|].
    + erewrite peek_head by done. eexists _, _. split; [done|].
      by exists a.
    + rewrite (peek_retry this _ w a l (File (Malformed s))) by done.
      unfold try_catch, mbind, async_bind.
      rewrite remove_ok; [|apply Hc|by eexists].
      destruct (IH (set_fs (without (entry this a) (fs w))
                      (next_tick (next_tick (next_tick w))))) as (r & w' & Hr & ?).
      * apply Hc.
      * simpl. by rewrite (queue_of_without_head this _ _ _ Hq).
      * change (fs (next_tick (next_tick w))) with (fs w). rewrite Hr.
        by exists r, w'.
    + rewrite (peek_retry this _ w a l Directory) by done.
      unfold try_catch, mbind, async_bind.
      rewrite remove_ok; [|apply Hc|by eexists].
      destruct (IH (set_fs (without (entry this a) (fs w))
                      (next_tick (next_tick (next_tick w))))) as (r & w' & Hr & ?).
      * apply Hc.
      * simpl. by rewrite (queue_of_without_head this _ _ _ Hq).
      * change (fs (next_tick (next_tick w))) with (fs w). rewrite Hr.
        by exists r, w'.
Qed.

Section calm_runs.
Variable this : UndeliveredPayloadQueue.

Lemma removes_calm l w rest :
  calm w → queue_of this (fs w) = l ++ rest →
  ∃ w', Promise_all ((λ f, remove (entry this f)) <$> l) w = Fulfilled () w'
        ∧ calm w' ∧ queue_of this (fs w') = rest
        ∧ _truncating w' = _truncating w ∧ reported w' = reported w
        ∧ in_flight w' = in_flight w
        ∧ fs w' !! _path this = fs w !! _path this
        ∧ ∀ g, has_slash g = false → g ∉ l →
               fs w' !! entry this g = fs w !! entry this g.
Proof.
  revert w. induction l as [|a l IH]; intros w Hc Hq.
  - exists w. by split_and!.
  - destruct (listed_head this _ _ _ Hq) as (_ & _ & Ha).
    destruct (IH (set_fs (without (entry this a) (fs w)) (next_tick w)))
      as (w' & Hrun & ? & ? & ? & ? & ? & Hp & Hfr).
    { apply Hc. }
    { simpl. by apply queue_of_without_head in Hq. }
    exists w'. cbn [fmap list_fmap Promise_all]. unfold mbind, async_bind.
    rewrite remove_ok; [|apply Hc|done]. split_and!; try done.
    + rewrite Hp. apply lookup_without_path.
    + intros g Hg [Hga Hgl]%not_elem_of_cons. rewrite Hfr by done.
      simpl. by rewrite lookup_without_entry.
Qed.

(** A pass that is resumed with a listing whose payloads are still the
    oldest entries of the queue. *)
Lemma truncate_from_calm names w :
  calm w → payloads_of names `prefix_of` queue_of this (fs w) →
  ∃ w', _truncate_from this (await (inr names)) w = Fulfilled () w'
        ∧ calm w' ∧ _truncating w' = false ∧ reported w' = reported w
        ∧ in_flight w' = in_flight w
        ∧ queue_of this (fs w') =
            drop (length (payloads_of names) - MAX_ITEMS) (queue_of this (fs w))
        ∧ fs w' !! _path this = fs w !! _path this
        ∧ ∀ g, has_slash g = false →
               g ∉ take (length (payloads_of names) - MAX_ITEMS)
                        (payloads_of names) →
               fs w' !! entry this g = fs w !! entry this g.
Proof.
  intros Hc [rest Hq].
  unfold _truncate_from, try_catch, mbind at 1, async_bind at 1, await.
  cbv zeta. set (q := payloads_of names) in *. case_bool_decide as Hd.
  - exists (set_truncating false w).
    assert (length q - MAX_ITEMS = 0) as -> by lia. by split_and!.
  - assert (Z.to_nat (Z.of_nat (length q) - Z.of_nat MAX_ITEMS)
            = length q - MAX_ITEMS) as -> by lia.
    destruct (removes_calm (take (length q - MAX_ITEMS) q) w
                (drop (length q - MAX_ITEMS) q ++ rest))
      as (w' & Hrun & ? & Hq' & ? & ? & ? & Hp' & Hfr).
    { apply Hc. }
    { by rewrite (assoc_L (++)), take_drop. }
    exists (set_truncating false w'). unfold mbind, async_bind. rewrite Hrun.
    split_and!; try done. simpl. rewrite Hq', Hq, drop_app_le; [done|lia].
Qed.

Lemma truncate_pass_listed w :
  faults w (tick w) (ReadDirectoryAsync (_path this)) = false →
  fs w !! _path this = Some Directory →
  _truncate_pass this w =
  _truncate_from this (await (inr (children (_path this) (fs w)))) (next_tick w).
Proof.
  intros Hf Hp. unfold _truncate_pass. rewrite truncate_from_called.
  unfold mbind, async_bind, called. by rewrite readDirectoryAsync_ok.
Qed.

Lemma truncate_pass_calm w :
  calm w → fs w !! _path this = Some Directory →
  ∃ w', _truncate_pass this w = Fulfilled () w'
        ∧ calm w' ∧ _truncating w' = false ∧ reported w' = reported w
        ∧ queue_of this (fs w') =
            drop (length (queue_of this (fs w)) - MAX_ITEMS) (queue_of this (fs w))
        ∧ fs w' !! _path this = Some Directory
        ∧ ∀ g, has_slash g = false →
               g ∉ take (length (queue_of this (fs w)) - MAX_ITEMS)
                        (queue_of this (fs w)) →
               fs w' !! entry this g = fs w !! entry this g.
Proof.
  intros Hc Hp. rewrite truncate_pass_listed by done.
  destruct (truncate_from_calm (children (_path this) (fs w)) (next_tick w))
    as (w' & Hrun & ? & ? & ? & _ & ? & Hp' & ?); [apply Hc|done|].
  exists w'. split_and!; try done. by rewrite Hp'.
Qed.

Lemma init_calm w :
  calm w → (∀ t, fs w !! _path this ≠ Some (File t)) →
  ∃ w', init this w = Fulfilled () w' ∧ calm w'
        ∧ fs w' = <[_path this := Directory]> (fs w)
        ∧ _truncating w' = _truncating w ∧ reported w' = reported w
        ∧ in_flight w' = in_flight w.
Proof.
  intros Hc Hp. unfold init, mbind, async_bind, FileSystem.getInfoAsync,
    FileSystem.makeDirectoryAsync, native. rewrite Hc.
  destruct (fs w !! _path this) as [[t|]|] eqn:Hx.
  - by destruct (Hp t).
  - simpl. eexists. split; [done|]. split_and!; try done.
    simpl. by rewrite insert_id.
  - simpl. rewrite Hc, Hx. eexists. by split_and!.
Qed.

Lemma writeAsStringAsync_ok f t w :
  faults w (tick w) (WriteAsStringAsync (entry this f)) = false →
  has_slash f = false → f ≠ "" →
  fs w !! _path this = Some Directory →
  fs w !! entry this f ≠ Some Directory →
  FileSystem.writeAsStringAsync (entry this f) t w =
  Fulfilled () (set_fs (<[entry this f := File t]> (fs w)) (next_tick w)).
Proof.
  intros Hf Hsl Hne Hp Hd. unfold FileSystem.writeAsStringAsync.
  apply native_ok; [done|]. unfold entry at 1. rewrite split_path_entry by done.
  rewrite Hp, bool_decide_false by done.
  by destruct (fs w !! entry this f) as [[]|].
Qed.

(** [enqueue] on a calm device: the file is written, and a pass is
    started with the listing of the directory as it is then, unless one
    is in flight. *)
Lemma enqueue_calm req now draws w :
  let f := generateFilename (_resource this) now draws in
  calm w → (∀ t, fs w !! _path this ≠ Some (File t)) →
  has_slash f = false → f ≠ "" → fs w !! entry this f ≠ Some Directory →
  ∃ w', enqueue this req now draws w = Fulfilled () w' ∧ calm w'
        ∧ fs w' = <[entry this f := File (JSON_stringify (with_retries_0 req))]>
                    (<[_path this := Directory]> (fs w))
        ∧ _truncating w' = true ∧ reported w' = reported w
        ∧ in_flight w' =
            if _truncating w then in_flight w
            else Some (inr (children (_path this) (fs w'))).
Proof.
  intros f Hc Hp Hsl Hne Hd.
  destruct (init_calm w Hc Hp) as (w1 & Hinit & Hc1 & Hfs1 & Htr1 & Hrep1 & Hin1).
  unfold enqueue, try_catch, mbind at 1 2, async_bind at 1 2. rewrite Hinit.
  fold f. rewrite writeAsStringAsync_ok; try done.
  - destruct (_truncating w) eqn:Hflag.
    + rewrite truncate_unawaited_skipped by (simpl; congruence).
      eexists. split; [done|].
      split_and!; [apply Hc1|simpl; by rewrite Hfs1|simpl; congruence..].
    + unfold _truncate_unawaited, mbind, async_bind, _truncate_guard, called.
      cbn [_truncating set_fs next_tick]. rewrite Htr1.
      rewrite readDirectoryAsync_ok.
      * eexists. split; [done|].
        split_and!; [apply Hc1|simpl; by rewrite Hfs1|done..].
      * apply Hc1.
      * simpl. rewrite lookup_insert_ne by apply entry_ne_path.
        rewrite Hfs1. apply lookup_insert_eq.
  - rewrite Hfs1. apply lookup_insert_eq.
  - rewrite Hfs1, lookup_insert_ne; [done|].
    intros H. by apply (entry_ne_path this f).
Qed.
End calm_runs.

Lemma elem_of_drop_1 {A} (x : A) n l : x ∈ drop n l → x ∈ l.
Proof. intros H. rewrite <-(take_drop n l). apply elem_of_app. by right. Qed.

Section schedules.
Variable this : UndeliveredPayloadQueue.
Hypothesis Hres : resource_ok this.

Lemma inv_fresh w :
  calm w → fresh this w → in_flight w = None → inv this [] 0 None w.
Proof.
  intros Hc [Hq Hp] Hin. split; try done.
  - by left.
  - intros n v Hn. by apply elem_of_nil in Hn.
Qed.

Lemma inv_enqueue hist k pass w req now draws :
  let f := generateFilename (_resource this) now draws in
  inv this hist k pass w → Forall (λ g, str_lt g f) hist.*1 →
  ∃ w', enqueue this req now draws w = Fulfilled () w'
        ∧ inv this (hist ++ [(f, with_retries_0 req)]) k
            (match pass with
             | Some n => Some n
             | None => if _truncating w then None else Some (S (length hist))
             end) w'.
Proof.
  intros f [Hc Hp Hd Hq Hk Hfiles Hfl] Hlt. destruct Hres as [Hsl Hlt'].
  assert (has_slash f = false) as Hfsl by by apply has_slash_generateFilename.
  assert (filenameRe_test f = true) as Hfre
    by by apply filenameRe_generateFilename.
  assert (k ≤ length hist) as Hkl by (destruct Hk; lia).
  assert (Forall (λ g, str_lt g f) (queue_of this (fs w))) as Hltq.
  { rewrite Hq. apply Forall_forall. intros g Hg.
    rewrite Forall_forall in Hlt. apply Hlt. by eapply elem_of_drop_1. }
  assert (fs w !! entry this f = None) as Hnew.
  { destruct (fs w !! entry this f) as [x|] eqn:Hx; [|done]. exfalso.
    assert (f ∈ queue_of this (fs w)) as Hin.
    { apply elem_of_queue_of. split_and!; [done..|]. by rewrite Hx. }
    rewrite Forall_forall in Hltq. apply Hltq, str_lt_le in Hin as [_ ?]. done. }
  destruct (enqueue_calm this req now draws w)
    as (w' & Hrun & Hc' & Hfs & Htr & _ & Hin');
    [done|done|done|by apply filenameRe_nonempty|by fold f; rewrite Hnew|].
  fold f in Hfs.
  assert (queue_of this (fs w') = drop k (hist ++ [(f, with_retries_0 req)]).*1)
    as Hq'.
  { rewrite Hfs, queue_of_insert_last, queue_of_insert_path, Hq;
      [|done|done|by rewrite queue_of_insert_path].
    rewrite fmap_app, drop_app_le; [done|by rewrite length_fmap]. }
  exists w'. split; [done|]. split.
  - done.
  - intros t. rewrite Hfs, lookup_insert_ne, lookup_insert_eq; [done|].
    apply entry_ne_path.
  - intros _. rewrite Hfs, lookup_insert_ne, lookup_insert_eq; [done|].
    apply entry_ne_path.
  - done.
  - rewrite length_app. simpl. destruct Hk; [by left|right; lia].
  - intros n v. rewrite drop_app_le by done.
    intros [Hn|Hn%list_elem_of_singleton]%elem_of_app.
    + rewrite Hfs, lookup_insert_ne, lookup_insert_ne; [by apply Hfiles| |].
      * intros H. by apply (entry_ne_path this n).
      * intros <-%entry_inj.
        assert (f ∈ hist.*1) as Hin.
        { apply list_elem_of_fmap. exists (f, v). split; [done|].
          by eapply elem_of_drop_1. }
        rewrite Forall_forall in Hlt. apply Hlt, str_lt_le in Hin as [_ ?]. done.
    + injection Hn as -> ->. by rewrite Hfs, lookup_insert_eq.
  - destruct pass as [n|].
    + destruct Hfl as (Hflag & Hn & Hkn & names & Hin & Hpay).
      rewrite Hflag in Hin'. split_and!; [done|rewrite length_app; lia|done|].
      exists names. split; [congruence|].
      by rewrite fmap_app, take_app_le by (by rewrite length_fmap).
    + destruct (_truncating w); [congruence|].
      split_and!; [done|rewrite length_app; simpl; lia|destruct Hk; lia|].
      eexists. split; [done|].
      change (payloads_of (children (_path this) (fs w')))
        with (queue_of this (fs w')).
      rewrite Hq', take_ge; [done|]. rewrite length_fmap, length_app. simpl. lia.
Qed.

Lemma inv_settle hist k pass w :
  inv this hist k pass w →
  ∃ w', settle this w = Fulfilled () w'
        ∧ inv this hist (after_pass k pass) None w'
        ∧ (is_Some pass → _truncating w' = false).
Proof.
  intros [Hc Hp Hd Hq Hk Hfiles Hfl]. unfold settle.
  destruct pass as [n|]; simpl.
  2:{ rewrite Hfl. exists w. split; [done|]. split; [by split|by intros [? ?]]. }
  destruct Hfl as (Hflag & Hn & Hkn & names & Hin & Hpay). rewrite Hin.
  assert (length (payloads_of names) = n - k) as Hlen.
  { rewrite Hpay, length_drop, length_take, length_fmap. lia. }
  destruct (truncate_from_calm this names (set_in_flight None w))
    as (w' & Hrun & Hc' & Htr' & _ & Hin' & Hq' & Hdir' & Hfr).
  { apply Hc. }
  { simpl. rewrite Hq, Hpay. exists (drop (k - length (take n hist.*1)) (drop n hist.*1)).
    by rewrite <-drop_app, take_drop. }
  rewrite Hlen in Hq', Hfr. simpl in Hq', Hdir', Hfr, Hin'.
  rewrite Hq, drop_drop in Hq'.
  exists w'. split; [done|]. split; [|done]. split; try done.
  - intros t. by rewrite Hdir'.
  - intros ?. rewrite Hdir'. by apply Hd.
  - destruct Hkn; [|right; lia].
    destruct (decide (n - k - MAX_ITEMS = 0)); [left|right]; lia.
  - intros g v Hg.
    assert (g ∈ queue_of this (fs w')) as Hgq.
    { rewrite Hq'. rewrite <-fmap_drop.
      apply list_elem_of_fmap. by exists (g, v). }
    apply elem_of_queue_of in Hgq as (_ & Hsl & _).
    rewrite Hfr; [apply Hfiles|done|].
    + rewrite <-drop_drop in Hg. by eapply elem_of_drop_1.
    + pose proof (NoDup_queue_of this (fs w)) as Hnd.
      rewrite Hq, <-(take_drop (n - k - MAX_ITEMS) (drop k hist.*1)) in Hnd.
      apply NoDup_app in Hnd as (_ & Hnd & _). intros Hgt.
      apply (Hnd g).
      * rewrite Hpay in Hgt. apply elem_of_take in Hgt as (i & Hi & Hlt).
        apply elem_of_take. exists i. split; [|done].
        rewrite lookup_drop in Hi. rewrite lookup_drop.
        apply lookup_take_Some in Hi. by destruct Hi.
      * rewrite drop_drop, <-fmap_drop. apply list_elem_of_fmap. by exists (g, v).
Qed.

Lemma HdRel_names now draws es :
  calendar_date now → Forall calendar_date (clock_readings es) →
  HdRel earlier now (clock_readings es) →
  HdRel str_lt (generateFilename (_resource this) now draws) (enqueued this es).*1.
Proof.
  intros Hnow. induction es as [|[req now' draws'|] es IH]; simpl;
    intros Hcal Hhd; [constructor| |by apply IH].
  constructor. apply Forall_cons in Hcal as [??].
  apply generateFilename_lt; [done..|]. by inversion Hhd.
Qed.

Lemma Sorted_names es :
  Forall calendar_date (clock_readings es) → Sorted earlier (clock_readings es) →
  StronglySorted str_lt (enqueued this es).*1.
Proof.
  intros Hcal Hs. apply Sorted_StronglySorted; [apply _|].
  induction es as [|[req now draws|] es IH]; simpl in *; [constructor| |by apply IH].
  apply Forall_cons in Hcal as [??]. apply Sorted_inv in Hs as [??].
  constructor; [by apply IH|]. by apply HdRel_names.
Qed.

Lemma inv_run es hist k pass w :
  inv this hist k pass w →
  StronglySorted str_lt (hist.*1 ++ (enqueued this es).*1) →
  ∃ w' k' pass', run this es w = Fulfilled () w'
                 ∧ inv this (hist ++ enqueued this es) k' pass' w'.
Proof.
  revert hist k pass w. induction es as [|[req now draws|] es IH];
    intros hist k pass w Hinv Hs; simpl.
  - exists w, k, pass. by rewrite (right_id_L [] (++)).
  - destruct (inv_enqueue hist k pass w req now draws Hinv) as (w1 & Hrun & Hinv1).
    { apply Forall_forall. intros g Hg.
      eapply (StronglySorted_app_1_elem_of _ _ _ g); [done..|]. by left. }
    simpl in Hs. destruct (IH _ _ _ _ Hinv1) as (w' & k' & pass' & Hrun' & Hinv').
    { by rewrite fmap_app, <-(assoc_L (++)). }
    exists w', k', pass'. unfold mbind, async_bind. rewrite Hrun.
    split; [done|]. by rewrite <-(assoc_L (++)) in Hinv'.
  - destruct (inv_settle hist k pass w Hinv) as (w1 & Hrun & Hinv1 & _).
    destruct (IH _ _ _ _ Hinv1 Hs) as (w' & k' & pass' & Hrun' & Hinv').
    exists w', k', pass'. unfold mbind, async_bind. by rewrite Hrun.
Qed.

(** Enqueues while a pass is in flight leave it as it is. *)
Lemma inv_run_in_flight es hist k n w :
  Settle ∉ es → inv this hist k (Some n) w →
  StronglySorted str_lt (hist.*1 ++ (enqueued this es).*1) →
  ∃ w', run this es w = Fulfilled () w'
        ∧ inv this (hist ++ enqueued this es) k (Some n) w'.
Proof.
  revert hist w. induction es as [|[req now draws|] es IH];
    intros hist w Hes Hinv Hs; simpl.
  - exists w. by rewrite (right_id_L [] (++)).
  - destruct (inv_enqueue hist k (Some n) w req now draws Hinv)
      as (w1 & Hrun & Hinv1).
    { apply Forall_forall. intros g Hg.
      eapply (StronglySorted_app_1_elem_of _ _ _ g); [done..|]. by left. }
    assert (Settle ∉ es) as Hes' by (intros H; apply Hes; by right).
    simpl in Hs. destruct (IH _ w1 Hes' Hinv1) as (w' & Hrun' & Hinv').
    { by rewrite fmap_app, <-(assoc_L (++)). }
    exists w'. unfold mbind, async_bind. rewrite Hrun.
    split; [done|]. by rewrite <-(assoc_L (++)) in Hinv'.
  - destruct Hes. by left.
Qed.

Lemma run_app es1 es2 w :
  run this (es1 ++ es2) w = (run this es1 ;; run this es2) w.
Proof.
  revert w. induction es1 as [|e es1 IH]; intros w; [done|].
  cbn [app run]. unfold mbind, async_bind in *.
  destruct (step this e w); [apply IH|done..].
Qed.

Lemma drain_calm kept w fuel rounds :
  calm w → (kept ≠ [] → fs w !! _path this = Some Directory) →
  queue_of this (fs w) = kept.*1 →
  (∀ n v, (n, v) ∈ kept → fs w !! entry this n = Some (File (Stringified v))) →
  length kept ≤ rounds →
  ∃ w', drain this (S fuel) rounds w =
          Fulfilled ((λ nv, (entry this nv.1, nv.2)) <$> kept) w'
        ∧ queue_of this (fs w') = [] ∧ calm w'.
Proof.
  revert w rounds. induction kept as [|[a v] kept IH];
    intros w rounds Hc Hdir Hq Hfiles Hlen.
  - destruct rounds as [|rounds]; [by exists w|]. cbn [drain].
    unfold mbind, async_bind.
    destruct (directory_or_not (fs w) (_path this)).
    + rewrite peek_empty by done. by eexists.
    + rewrite peek_listing_fails by auto. by eexists.
  - destruct rounds as [|rounds]; [simpl in Hlen; lia|]. cbn [drain].
    unfold mbind at 1, async_bind at 1. simpl in Hq.
    erewrite peek_head; [|done|by apply Hdir|done|by apply Hfiles; left].
    unfold mbind at 1, async_bind at 1.
    rewrite remove_ok; [|apply Hc|]. 2:{ exists (File (Stringified v)). apply Hfiles. by left. }
    pose proof (NoDup_queue_of this (fs w)) as Hnd. rewrite Hq in Hnd.
    apply NoDup_cons in Hnd as [Ha _].
    destruct (IH (set_fs (without (entry this a) (fs w))
                    (next_tick (next_tick (next_tick w)))) rounds)
      as (w' & Hrun & ? & ?).
    + apply Hc.
    + intros _. simpl. rewrite lookup_without_path. by apply Hdir.
    + simpl. by apply queue_of_without_head in Hq.
    + intros n v' Hn. simpl.
      assert (n ∈ queue_of this (fs w)) as Hin.
      { rewrite Hq. right. apply list_elem_of_fmap. by exists (n, v'). }
      apply elem_of_queue_of in Hin as (_ & Hsl & _).
      rewrite lookup_without_entry; [apply Hfiles; by right|done|].
      intros ->. apply Ha. apply list_elem_of_fmap. by exists (n, v').
    + simpl in Hlen. lia.
    + exists w'. unfold mbind, async_bind.
      change (fs (next_tick (next_tick w))) with (fs w). rewrite Hrun.
      by split.
Qed.
End schedules.

(** Claim C1, as the code has it. Start from a queue directory without
    payload files and with no truncation pass in flight, on a device that
    rejects no call, with a resource name free of slashes and line
    terminators, and let every [enqueue] read a clock value later than the
    one before (years 0 to 9999). Then after any schedule of enqueues and
    of truncation passes being resumed, repeated [peek] and [remove]
    return the stored payloads in exactly the order of their enqueues: all
    of them, or all but the [k] oldest, and entries are missing only if more
    than [MAX_ITEMS] were enqueued. The queue is empty afterwards. *)
Theorem fifo_when_clock_advances this w es :
  resource_ok this → calm w → fresh this w → in_flight w = None →
  Forall calendar_date (clock_readings es) →
  Sorted earlier (clock_readings es) →
  ∃ w1 k,
    run this es w = Fulfilled () w1
    ∧ (k = 0 ∨ k + MAX_ITEMS ≤ length (enqueued this es))
    ∧ ∀ fuel rounds, length (enqueued this es) - k ≤ rounds →
        ∃ w2, drain this (S fuel) rounds w1 =
                Fulfilled ((λ nv, (entry this nv.1, nv.2))
                             <$> drop k (enqueued this es)) w2
              ∧ queue_of this (fs w2) = [].
Proof.
  intros Hres Hc Hfresh Hin Hcal Hs.
  destruct (inv_run this Hres es [] 0 None w) as (w1 & k & pass & Hrun & Hinv).
  { by apply inv_fresh. }
  { by apply Sorted_names. }
  simpl in Hinv. destruct Hinv as [Hc1 Hp Hd Hq Hk Hfiles _].
  exists w1, k. split_and!; [done..|]. intros fuel rounds Hrounds.
  destruct (drain_calm this (drop k (enqueued this es)) w1 fuel rounds)
    as (w2 & Hdrain & ? & _); try done.
  - intros Hne. apply Hd. intros Hnil. by rewrite Hnil, drop_nil in Hne.
  - by rewrite fmap_drop.
  - by rewrite length_drop.
  - by exists w2.
Qed.

Lemma enqueued_app this es1 es2 :
  enqueued this (es1 ++ es2) = enqueued this es1 ++ enqueued this es2.
Proof. apply omap_app. Qed.

Lemma length_enqueued this es : Settle ∉ es → length (enqueued this es) = length es.
Proof.
  induction es as [|[req now draws|] es IH]; intros Hes; [done| |].
  - simpl. rewrite IH; [done|]. intros H. apply Hes. by right.
  - destruct Hes. by left.
Qed.

(** Claim C2, as the code has it. On a device that rejects no call, a call
    of [_truncate] that runs from start to end with nothing in between
    leaves the [MAX_ITEMS] last names of the queue (in the order of names)
    and removes the others, so that at most [MAX_ITEMS] entries remain.
    The pass that [enqueue] starts lists the directory when it starts: take
    any schedule [es] of enqueues and resumed passes on a fresh queue, let
    the pass in flight end, let one more [enqueue] start a pass, let the
    enqueues [late] follow while that pass is in flight, and let the pass
    end, every [enqueue] reading a later clock value than the one before.
    Then the flag is clear, nothing is in flight, and the queue holds the
    entries enqueued in [late] and, of the [n] entries enqueued up to the
    start of the pass, the [MAX_ITEMS] most recent (all of them if [n] is
    smaller), each with its payload. These are [min n MAX_ITEMS + length
    late] entries: more than [MAX_ITEMS] as soon as [n] has reached
    [MAX_ITEMS] and an entry was enqueued while the pass was in flight. *)
Theorem truncation_restores_bound this :
  (∀ w, calm w → fs w !! _path this = Some Directory → _truncating w = false →
     ∃ w', _truncate this w = Fulfilled () w'
           ∧ queue_of this (fs w') =
               drop (length (queue_of this (fs w)) - MAX_ITEMS)
                    (queue_of this (fs w))
           ∧ length (queue_of this (fs w')) ≤ 64)
  ∧ (∀ w es req now draws late,
       resource_ok this → calm w → fresh this w →
       _truncating w = false → in_flight w = None →
       Forall calendar_date
         (clock_readings (es ++ Settle :: Enqueue req now draws :: late)) →
       Sorted earlier
         (clock_readings (es ++ Settle :: Enqueue req now draws :: late)) →
       Settle ∉ late →
       ∃ w', run this ((es ++ Settle :: Enqueue req now draws :: late) ++ [Settle]) w
             = Fulfilled () w'
             ∧ _truncating w' = false ∧ in_flight w' = None
             ∧ queue_of this (fs w') =
                 drop (S (length (enqueued this es)) - MAX_ITEMS)
                      (enqueued this
                         (es ++ Settle :: Enqueue req now draws :: late)).*1
             ∧ (∀ n v,
                  (n, v) ∈ drop (S (length (enqueued this es)) - MAX_ITEMS)
                             (enqueued this
                                (es ++ Settle :: Enqueue req now draws :: late)) →
                  fs w' !! entry this n = Some (File (Stringified v)))
             ∧ length (queue_of this (fs w')) =
                 S (length (enqueued this es)) `min` 64 + length late).
Proof.
  split.
  - intros w Hc Hdir Htr. unfold _truncate, mbind, async_bind, _truncate_guard.
    rewrite Htr.
    destruct (truncate_pass_calm this (set_truncating true w))
      as (w' & Hrun & _ & _ & _ & Hq & _); [apply Hc|done|].
    exists w'. split; [done|]. split; [done|].
    simpl in Hq. rewrite Hq, length_drop. unfold MAX_ITEMS. lia.
  - intros w es req now draws late Hres Hc Hfresh Htr Hin Hcal Hs Hlate.
    set (x := (generateFilename (_resource this) now draws, with_retries_0 req)).
    assert (enqueued this (es ++ Settle :: Enqueue req now draws :: late)
            = (enqueued this es ++ [x]) ++ enqueued this late) as Henq.
    { rewrite enqueued_app. simpl. by rewrite <-(assoc_L (++)). }
    pose proof (Sorted_names this _ Hcal Hs) as Hsorted.
    rewrite Henq in Hsorted. rewrite Henq. clear Hcal Hs.
    rewrite fmap_app in Hsorted.
    pose proof (StronglySorted_app_1_l _ _ _ Hsorted) as Hsorted1.
    rewrite fmap_app in Hsorted1.
    (* the events before the pass *)
    destruct (inv_run this Hres es [] 0 None w) as (w1 & k1 & pass1 & Hrun1 & Hinv1).
    { by apply inv_fresh. }
    { by apply StronglySorted_app_1_l in Hsorted1. }
    destruct (run_single_flight this es w) as (w1' & Hrun1' & Hsf1).
    { unfold single_flight. rewrite Htr, Hin. split; [intros [=]|intros [? [=]]]. }
    rewrite Hrun1 in Hrun1'. injection Hrun1' as <-. simpl in Hinv1.
    destruct (inv_settle this _ _ _ _ Hinv1) as (w2 & Hrun2 & Hinv2 & Hrel2).
    assert (_truncating w2 = false) as Htr2.
    { destruct pass1 as [n1|]; [apply Hrel2; by eexists|].
      pose proof (inv_flight _ _ _ _ _ Hinv1) as Hnone. simpl in Hnone.
      unfold settle in Hrun2. rewrite Hnone in Hrun2. injection Hrun2 as <-.
      destruct (_truncating w1) eqn:Hflag; [|done].
      destruct Hsf1 as [Hsf1 _]. destruct (Hsf1 Hflag) as [? Hsome]. congruence. }
    (* the enqueue that starts the pass *)
    destruct (inv_enqueue this Hres _ _ None w2 req now draws Hinv2)
      as (w3 & Hrun3 & Hinv3).
    { apply Forall_forall. intros g Hg.
      eapply (StronglySorted_app_1_elem_of _ _ _ g); [done..|]. by left. }
    rewrite Htr2 in Hinv3. fold x in Hinv3.
    (* the enqueues while it is in flight, and its end *)
    destruct (inv_run_in_flight this Hres late _ _ _ w3 Hlate Hinv3)
      as (w4 & Hrun4 & Hinv4).
    { exact Hsorted. }
    destruct (inv_settle this _ _ _ _ Hinv4) as (w5 & Hrun5 & Hinv5 & Hrel5).
    pose proof (inv_kept _ _ _ _ _ Hinv2) as Hk2.
    assert (after_pass (after_pass k1 pass1) (Some (S (length (enqueued this es))))
            = S (length (enqueued this es)) - MAX_ITEMS) as Hk5.
    { unfold after_pass at 1. destruct Hk2; lia. }
    rewrite Hk5 in Hinv5. destruct Hinv5 as [_ _ _ Hq5 _ Hfiles5 Hfl5].
    exists w5. split_and!.
    + rewrite run_app. unfold mbind at 1, async_bind at 1.
      rewrite run_app. unfold mbind at 1, async_bind at 1. rewrite Hrun1.
      cbn [run step]. unfold mbind, async_bind.
      by rewrite Hrun2, Hrun3, Hrun4, Hrun5.
    + apply Hrel5. by eexists.
    + done.
    + done.
    + done.
    + rewrite Hq5, length_drop, length_fmap, !length_app,
        (length_enqueued this late) by done.
      unfold MAX_ITEMS. simpl. lia.
Qed.

(** Objects *)
Lemma get_set_prop k k' v ps :
  get_prop k (set_prop k' v ps) = if bool_decide (k = k') then Some v else get_prop k ps.
Proof.
  induction ps as [|[k0 v0] ps IH]; simpl.
  - by case_bool_decide.
  - destruct (bool_decide_reflect (k' = k0)) as [->|Hk0]; simpl.
    + by repeat case_bool_decide.
    + rewrite IH. repeat case_bool_decide; congruence.
Qed.

Lemma get_prop_fold k l t :
  get_prop k (fold_left assign l t) =
  match get_prop k (fold_left assign l []) with
  | Some r => Some r
  | None => get_prop k t
  end.
Proof.
  revert t. induction l as [|[k' v'] l IH]; intros t; [done|].
  simpl. rewrite (IH (assign t _)), (IH (assign [] _)).
  destruct (get_prop k (fold_left assign l [])); [done|].
  unfold assign. simpl. rewrite get_set_prop. by case_bool_decide.
Qed.

(** A property of [{ ...target, ...source }] is that of [source] if it has
    one, and else that of [target]. *)
Lemma get_prop_spread k target source :
  get_prop k (spread target source) =
  match get_prop k (spread [] source) with
  | Some r => Some r
  | None => get_prop k target
  end.
Proof. apply get_prop_fold. Qed.


Lemma snoc_ne {A} (l : list A) x : l ++ [x] ≠ l.
Proof. intros H. apply (f_equal length) in H. rewrite length_app in H. simpl in H. lia. Qed.

Lemma removal_quiet id w w' :
  removal id w w' → reported w' = reported w →
  is_Some (fs w !! id) ∧ fs w' = without id (fs w).
Proof.
  intros [(? & ? & _)|(_ & e & He)] Hrep; [done|].
  rewrite Hrep in He. symmetry in He. by apply snoc_ne in He.
Qed.









(** Claim C8, as the code has it. After a [remove] that deleted the entry
    (it reported nothing), a second [remove] of the same id is fulfilled as
    well and leaves the files and the truncation flag as they were, but it
    is an error for the file system: [deleteAsync] rejects for the missing
    path, and [remove] hands exactly that error to [onerror]. *)
Theorem remove_twice id w w1 :
  remove id w = Fulfilled () w1 → reported w1 = reported w →
  ∃ w2, remove id w1 = Fulfilled () w2 ∧ fs w2 = fs w1
        ∧ _truncating w2 = _truncating w1
        ∧ reported w2 = reported w1 ++ [Failed (DeleteAsync id)]
        ∧ fs w1 !! id = None.
Proof.
  intros Hrun Hrep. destruct (remove_outcome id w) as (w' & Hrun' & Hrem & _).
  rewrite Hrun in Hrun'. injection Hrun' as <-.
  apply removal_quiet in Hrem as [_ Hfs]; [|done].
  assert (fs w1 !! id = None) as Hgone by by rewrite Hfs, lookup_without_same.
  rewrite remove_missing by done. by eexists.
Qed.

(** Claim C10, as the code has it. A file of the queue directory whose name
    does not match [filenameRe] is not part of the queue, whatever it holds;
    [peek] never returns it and leaves it alone, and so do [_truncate], a
    pass in flight, [enqueue] (for a resource name without line terminator),
    and [remove] and [update] when given the id of a payload file. *)
Theorem nonmatching_files_invisible this f w :
  filenameRe_test f = false → has_slash f = false →
  (∀ x, queue_of this (<[entry this f := x]> (fs w)) = queue_of this (fs w))
  ∧ (∀ fuel r w', peek this fuel w = Fulfilled r w' →
       fs w' !! entry this f = fs w !! entry this f
       ∧ ∀ v, r ≠ Some (entry this f, v))
  ∧ (∀ w', _truncate this w = Fulfilled () w' →
           fs w' !! entry this f = fs w !! entry this f)
  ∧ (∀ w', settle this w = Fulfilled () w' →
           fs w' !! entry this f = fs w !! entry this f)
  ∧ (∀ req now draws w',
       has_line_terminator (_resource this) = false →
       enqueue this req now draws w = Fulfilled () w' →
       fs w' !! entry this f = fs w !! entry this f)
  ∧ (∀ g w', filenameRe_test g = true →
       remove (entry this g) w = Fulfilled () w' →
       fs w' !! entry this f = fs w !! entry this f)
  ∧ (∀ g updates w', filenameRe_test g = true →
       update (entry this g) updates w = Fulfilled () w' →
       fs w' !! entry this f = fs w !! entry this f).
Proof.
  intros Hf Hsl.
  assert (∀ g, filenameRe_test g = true → g ≠ f) as Hne by (intros g Hg ->; congruence).
  assert (∀ g w1, filenameRe_test g = true →
            fs w1 !! entry this f = fs w !! entry this f →
            without (entry this g) (fs w1) !! entry this f = fs w !! entry this f)
    as Hdel.
  { intros g w1 Hg <-. apply lookup_without_entry; auto. }
  assert (∀ w0 w', _truncate_pass this w0 = Fulfilled () w' → fs w0 = fs w →
            fs w' !! entry this f = fs w !! entry this f) as Hpass.
  { intros w0 w' Hrun Hw0.
    pose proof (wp_truncate_pass
      (λ w1, fs w1 !! entry this f = fs w !! entry this f) this w0
      (λ _ _, False) False) as Hwp.
    unfold wp in Hwp. rewrite Hrun in Hwp. apply Hwp; try done.
    - intros g w1 Hg _ _. by apply Hdel.
    - by rewrite Hw0. }
  split_and!.
  - intros x. by apply queue_of_insert_nonmatching.
  - intros fuel r w' Hrun.
    pose proof (wp_peek (λ w1, fs w1 !! entry this f = fs w !! entry this f)
                  this fuel w) as Hwp.
    unfold wp in Hwp. rewrite Hrun in Hwp.
    destruct Hwp as [Hfs Hr]; try done.
    { intros g w1 Hg _. by apply Hdel. }
    split; [done|]. intros v ->. destruct Hr as (g & ?%entry_inj & Hg & _).
    subst g. congruence.
  - intros w'. unfold _truncate, mbind, async_bind, _truncate_guard.
    destruct (_truncating w); [by intros [= <-]|]. intros Hrun.
    by apply (Hpass _ _ Hrun).
  - intros w'. unfold settle. destruct (in_flight w) as [p|]; [|by intros [= <-]].
    intros Hrun.
    pose proof (wp_truncate_from
      (λ w1, fs w1 !! entry this f = fs w !! entry this f) this p
      (set_in_flight None w) (λ _ _, False) False) as Hwp.
    unfold wp in Hwp. rewrite Hrun in Hwp. apply Hwp; try done.
    intros names g w1 _ Hg _. by apply Hdel.
  - intros req now draws w' Hres Hrun.
    destruct (enqueue_outcome this req now draws w) as (w1 & Hrun1 & Hadd & _).
    rewrite Hrun in Hrun1. injection Hrun1 as <-.
    assert (entry this f ≠ _path this) by apply entry_ne_path.
    destruct Hadd as [(-> & _)|([->| ->] & _)]; [|done|by rewrite lookup_insert_ne].
    rewrite !lookup_insert_ne; [done..|]. intros ?%entry_inj.
    by eapply Hne; [apply filenameRe_generateFilename|].
  - intros g w' Hg Hrun.
    destruct (remove_outcome (entry this g) w) as (w1 & Hrun1 & Hrem & _).
    rewrite Hrun in Hrun1. injection Hrun1 as <-.
    destruct Hrem as [(_ & -> & _)|[-> _]]; [|done]. by apply Hdel.
  - intros g updates w' Hg Hrun.
    destruct (update_outcome (entry this g) updates w) as (w1 & Hrun1 & Hupd & _).
    rewrite Hrun in Hrun1. injection Hrun1 as <-.
    destruct Hupd as [(p & _ & -> & _)|[-> _]]; [|done].
    rewrite lookup_insert_ne; [done|]. intros ?%entry_inj. by eapply Hne.
Qed.

Lemma calm_device m : calm (device m no_faults).
Proof. by intros n call. Qed.

(** Against claim C5: [peek] deletes the corrupt oldest entry, returns the
    valid one, and [onerror] has not been called. *)
Lemma corrupt_entry_is_not_reported :
  let p := peek events_queue 2 (device corrupt_then_valid no_faults) in
  corrupt_then_valid !! entry_a = Some (File (Malformed "{"))
  ∧ returned p = Some (Some (entry_b, with_retries_0 report_b))
  ∧ (λ w, (fs w !! entry_a, reported w)) <$> settled_in p = Some (None, []).
Proof. by vm_compute. Qed.


(** Against claim C1: two enqueues within one millisecond, the first with the
    greater uid; [peek] returns the payload that was enqueued last. *)
Lemma same_millisecond_breaks_fifo :
  returned
    ((enqueue events_queue report_a (noon 0) (draws_of 9) ;;
      enqueue events_queue report_b (noon 0) (draws_of 0) ;;
      peek events_queue 1) (device ∅ no_faults))
  = Some (Some (entry events_queue
                  (generateFilename "events" (noon 0) (draws_of 0)),
                with_retries_0 report_b)).
Proof. by vm_compute. Qed.

(** Against claim C2: with sixty-five entries and a device that rejects every
    deletion, all sixty-five are left when [_truncate] is done. On a device
    that rejects nothing, after sixty-five enqueues, each a millisecond
    after the one before, and the end of the pass, sixty-five entries are
    left with the flag clear and nothing reported: the pass was started by
    the first [enqueue] and listed one entry. And when sixty-five enqueues
    fall within one millisecond and the last one starts the pass, the pass
    removes the entry that was enqueued last. *)
Lemma truncation_can_miss_the_bound :
  (length ∘ queue_of events_queue ∘ fs)
    <$> settled_in (_truncate events_queue (device crowded delete_rejected))
  = Some 65
  ∧ (λ w, (length (queue_of events_queue (fs w)), _truncating w, in_flight w,
           reported w))
    <$> settled_in (run events_queue (steady 0 65 ++ [Settle]) (device ∅ no_faults))
  = Some (65, false, None, [])
  ∧ (λ w, (length (queue_of events_queue (fs w)),
           fs w !! entry events_queue
                     (generateFilename "events" (noon 0) (draws_of 0))))
    <$> settled_in (run events_queue (burst ++ [Settle]) (device ∅ no_faults))
  = Some (64, None).
Proof. by vm_compute. Qed.


(** Against claim C8: on a device that rejects nothing, the first [remove]
    of an entry deletes it and reports nothing; the second [remove] of the
    same id is fulfilled, and the error sink has received the failure of
    [deleteAsync]. *)
Lemma second_remove_is_reported :
  let first := remove entry_a (device two_valid no_faults) in
  let second := (remove entry_a ;; remove entry_a) (device two_valid no_faults) in
  (λ w, (fs w !! entry_a, reported w)) <$> settled_in first = Some (None, [])
  ∧ returned second = Some ()
  ∧ (λ w, (fs w !! entry_a, reported w)) <$> settled_in second
    = Some (None, [Failed (DeleteAsync entry_a)]).
Proof. by vm_compute. Qed.

(** Against claim C10: [remove] deletes a file whose name does not match when
    it is given its path. *)
Lemma remove_deletes_any_file :
  filenameRe_test "notes.txt" = false
  ∧ corrupt_then_valid !! notes = Some (File (Malformed "to do"))
  ∧ (λ w, fs w !! notes)
      <$> settled_in (remove notes (device corrupt_then_valid no_faults))
    = Some None.
Proof. by vm_compute. Qed.

Lemma calendar_noon ms : ms < 1000 → calendar_date (noon ms).
Proof. intros. unfold calendar_date. simpl. lia. Qed.

Lemma fresh_empty this oracle : fresh this (device ∅ oracle).
Proof.
  split; [|intros t; simpl; by rewrite lookup_empty].
  apply queue_of_unique; [constructor..|].
  intros n. split; [by intros ?%elem_of_nil|].
  intros (_ & _ & [x Hx]). simpl in Hx. by rewrite lookup_empty in Hx.
Qed.

Lemma calendar_noons first n :
  first + n ≤ 1000 → Forall calendar_date (noon <$> seq first n).
Proof.
  revert first. induction n as [|n IH]; intros first Hn; [constructor|].
  simpl. constructor; [apply calendar_noon; lia|]. apply IH. lia.
Qed.

Lemma earlier_noon a b : a < b → earlier (noon a) (noon b).
Proof. intros. unfold earlier. simpl. lia. Qed.

Lemma Sorted_noons first n : Sorted earlier (noon <$> seq first n).
Proof.
  revert first. induction n as [|n IH]; intros first; [constructor|].
  simpl. constructor; [apply IH|]. destruct n; simpl; constructor.
  apply earlier_noon. lia.
Qed.

Lemma fifo_when_clock_advances_witness :
  ∃ w1 k,
    run events_queue two_enqueues (device ∅ no_faults) = Fulfilled () w1
    ∧ (k = 0 ∨ k + MAX_ITEMS ≤ length (enqueued events_queue two_enqueues))
    ∧ ∀ fuel rounds, length (enqueued events_queue two_enqueues) - k ≤ rounds →
        ∃ w2, drain events_queue (S fuel) rounds w1 =
                Fulfilled ((λ nv, (entry events_queue nv.1, nv.2))
                             <$> drop k (enqueued events_queue two_enqueues)) w2
              ∧ queue_of events_queue (fs w2) = [].
Proof.
  apply fifo_when_clock_advances.
  - split; reflexivity.
  - apply calm_device.
  - apply fresh_empty.
  - reflexivity.
  - repeat (apply Forall_cons_2; [apply calendar_noon; lia|]). apply Forall_nil_2.
  - apply Sorted_cons; [apply Sorted_cons; [apply Sorted_nil|apply HdRel_nil]|].
    apply HdRel_cons. unfold earlier. simpl. lia.
Defined.

Lemma clock_readings_overflow : clock_readings overflow = noon <$> seq 0 66.
Proof. by vm_compute. Qed.

Lemma truncation_restores_bound_witness :
  ∃ w', run events_queue
          ((steady 0 64 ++ Settle :: Enqueue (JNumber 64) (noon 64) (draws_of 0)
                                  :: steady 65 1) ++ [Settle])
          (device ∅ no_faults)
        = Fulfilled () w'
        ∧ _truncating w' = false ∧ in_flight w' = None
        ∧ queue_of events_queue (fs w') =
            drop (S (length (enqueued events_queue (steady 0 64))) - MAX_ITEMS)
                 (enqueued events_queue
                    (steady 0 64 ++ Settle :: Enqueue (JNumber 64) (noon 64) (draws_of 0)
                                           :: steady 65 1)).*1
        ∧ (∀ n v,
             (n, v) ∈ drop (S (length (enqueued events_queue (steady 0 64))) - MAX_ITEMS)
                        (enqueued events_queue
                           (steady 0 64 ++ Settle
                              :: Enqueue (JNumber 64) (noon 64) (draws_of 0)
                              :: steady 65 1)) →
             fs w' !! entry events_queue n = Some (File (Stringified v)))
        ∧ length (queue_of events_queue (fs w')) =
            S (length (enqueued events_queue (steady 0 64))) `min` 64
            + length (steady 65 1).
Proof.
  apply (truncation_restores_bound events_queue).
  - split; reflexivity.
  - apply calm_device.
  - apply fresh_empty.
  - reflexivity.
  - reflexivity.
  - fold overflow. rewrite clock_readings_overflow. apply calendar_noons. lia.
  - fold overflow. rewrite clock_readings_overflow. apply Sorted_noons.
  - by intros [=]%list_elem_of_singleton.
Defined.

Lemma peek_self_heals_witness :
  ∃ w', peek events_queue 2 (device corrupt_then_valid no_faults)
        = Fulfilled (Some (entry_b, with_retries_0 report_b)) w'
        ∧ fs w' !! entry_a = None
        ∧ queue_of events_queue (fs w') = ["bugsnag-b.json"].
Proof.
  apply (peek_self_heals events_queue (device corrupt_then_valid no_faults)
           "bugsnag-a.json" "bugsnag-b.json" [] "{" (with_retries_0 report_b) 0).
  - apply calm_device.
  - by vm_compute.
  - by vm_compute.
  - by vm_compute.
  - by vm_compute.
Defined.

Lemma peek_reports_only_failed_calls_witness :
  ∃ new, reported healed = reported (device corrupt_then_valid no_faults) ++ new
         ∧ Forall listing_or_delete_failure new.
Proof.
  apply (peek_reports_only_failed_calls events_queue 2
           (device corrupt_then_valid no_faults)
           (Some (entry_b, with_retries_0 report_b))).
  by vm_compute.
Defined.

Lemma peek_spins_when_delete_fails_witness :
  peek events_queue 1000 (device corrupt_then_valid delete_rejected) = Pending.
Proof.
  apply (peek_spins_when_delete_fails events_queue
           (device corrupt_then_valid delete_rejected)
           "bugsnag-a.json" ["bugsnag-b.json"] (File (Malformed "{"))).
  - by intros n.
  - by intros n.
  - by vm_compute.
  - by vm_compute.
  - by vm_compute.
  - exact I.
Defined.


Lemma remove_twice_witness :
  ∃ w2, remove entry_a (set_fs (without entry_a two_valid)
                          (next_tick (device two_valid no_faults)))
        = Fulfilled () w2
        ∧ fs w2 = without entry_a two_valid
        ∧ _truncating w2 = false
        ∧ reported w2 = [] ++ [Failed (DeleteAsync entry_a)]
        ∧ without entry_a two_valid !! entry_a = None.
Proof.
  apply (remove_twice entry_a (device two_valid no_faults)).
  - by vm_compute.
  - reflexivity.
Defined.

Lemma truncate_single_flight_witness :
  ((∃ w' listing,
      _truncate_unawaited events_queue (device two_valid no_faults) = Fulfilled () w'
      ∧ _truncating w' = true ∧ in_flight w' = Some listing
      ∧ fs w' = two_valid ∧ reported w' = [])
   ∧ (∃ w', _truncate events_queue (device two_valid no_faults) = Fulfilled () w'
            ∧ _truncating w' = false))
  ∧ (_truncate_unawaited events_queue passing = Fulfilled () passing
     ∧ _truncate events_queue passing = Fulfilled () passing)
  ∧ (_truncate_unawaited events_queue passing = Fulfilled () passing
     ∧ _truncate events_queue passing = Fulfilled () passing)
  ∧ (∃ w', settle events_queue passing = Fulfilled () w'
           ∧ _truncating w' = false ∧ in_flight w' = None)
  ∧ (∃ w', run events_queue two_enqueues (device ∅ no_faults) = Fulfilled () w'
           ∧ single_flight w').
Proof.
  destruct (truncate_single_flight events_queue (device two_valid no_faults))
    as (Henter & _).
  destruct (truncate_single_flight events_queue passing)
    as (_ & Hskip & Hskip' & Hrelease & _).
  destruct (truncate_single_flight events_queue (device ∅ no_faults))
    as (_ & _ & _ & _ & _ & Hrun).
  split; [apply Henter; reflexivity|].
  split; [apply Hskip; reflexivity|].
  split.
  { apply (Hskip' (inr ["bugsnag-a.json"; "bugsnag-b.json"])); [|reflexivity].
    split; [intros _; by eexists|reflexivity]. }
  split; [apply (Hrelease (inr ["bugsnag-a.json"; "bugsnag-b.json"])); reflexivity|].
  apply Hrun. split; [intros [=]|intros [? [=]]].
Defined.

Lemma nonmatching_files_invisible_witness :
  fs healed !! notes = fs (device corrupt_then_valid no_faults) !! notes
  ∧ ∀ v, Some (entry_b, with_retries_0 report_b) ≠ Some (notes, v).
Proof.
  destruct (nonmatching_files_invisible events_queue "notes.txt"
              (device corrupt_then_valid no_faults)) as (_ & H & _).
  - reflexivity.
  - reflexivity.
  - apply (H 2). by vm_compute.
Defined.

(** ** More about [peek] *)

(** X2. On a device that rejects no call, [peek] removes every entry it cannot
    read or parse that sorts before the first valid one, returns that valid
    entry, leaves it and what follows in the queue, and reports nothing. *)
Theorem peek_heals_prefix this bad a rest v w fuel :
  calm w → fs w !! _path this = Some Directory →
  queue_of this (fs w) = bad ++ a :: rest →
  (∀ b, b ∈ bad → ∃ x, fs w !! entry this b = Some x ∧ unreadable x) →
  fs w !! entry this a = Some (File (Stringified v)) →
  ∃ w', peek this (S (length bad + fuel)) w = Fulfilled (Some (entry this a, v)) w'
        ∧ queue_of this (fs w') = a :: rest
        ∧ (∀ b, b ∈ bad → fs w' !! entry this b = None)
        ∧ reported w' = reported w.
Proof.
  revert w. induction bad as [|b bad IH]; intros w Hc Hp Hq Hbad Ha.
  - cbn [length Nat.add app] in *. erewrite peek_head by done.
    eexists. split_and!; try done.
    intros b Hb. by apply elem_of_nil in Hb.
  - simpl in Hq. destruct (Hbad b) as (x & Hx & Hun); [by left|].
    pose proof (NoDup_queue_of this (fs w)) as Hnd. rewrite Hq in Hnd.
    apply NoDup_cons in Hnd as [Hb Hnd].
    assert (∀ g, g ∈ bad ++ a :: rest →
              without (entry this b) (fs w) !! entry this g = fs w !! entry this g)
      as Hfr.
    { intros g Hg. apply lookup_without_entry; [|by intros ->].
      assert (g ∈ queue_of this (fs w)) as Hin by (rewrite Hq; by right).
      by apply elem_of_queue_of in Hin as (_ & ? & _). }
    cbn [length Nat.add]. rewrite (peek_retry this _ w b _ x) by done.
    unfold try_catch, mbind, async_bind.
    rewrite remove_ok; [|apply Hc|by eexists].
    destruct (IH (set_fs (without (entry this b) (fs w))
                    (next_tick (next_tick (next_tick w)))))
      as (w' & Hrun & Hq' & Hgone & Hrep).
    + apply Hc.
    + simpl. by rewrite lookup_without_path.
    + simpl. by apply queue_of_without_head in Hq.
    + intros g Hg. simpl. rewrite Hfr by (apply elem_of_app; by left).
      apply Hbad. by right.
    + simpl. rewrite Hfr; [done|]. apply elem_of_app. right. by left.
    + exists w'. change (fs (next_tick (next_tick w))) with (fs w).
      rewrite Hrun. split_and!; try done.
      intros g [->|Hg]%elem_of_cons; [|by apply Hgone].
      assert (b ∉ queue_of this (fs w')) as Hnin.
      { rewrite Hq'. intros Hin. apply Hb. apply elem_of_app. by right. }
      destruct (fs w' !! entry this b) as [y|] eqn:Hy; [|done].
      destruct Hnin. apply elem_of_queue_of.
      assert (b ∈ queue_of this (fs w)) as Hin by (rewrite Hq; by left).
      apply elem_of_queue_of in Hin as (? & ? & _).
      split_and!; [done..|]. by rewrite Hy.
Qed.

(** X3. When no entry of the queue can be read or parsed, [peek] removes them
    all and returns [null]; nothing is reported. *)
Theorem peek_empties_unreadable_queue this w :
  calm w → fs w !! _path this = Some Directory →
  (∀ b, b ∈ queue_of this (fs w) → ∃ x, fs w !! entry this b = Some x ∧ unreadable x) →
  ∃ w', peek this (S (length (queue_of this (fs w)))) w = Fulfilled None w'
        ∧ queue_of this (fs w') = []
        ∧ reported w' = reported w.
Proof.
  remember (queue_of this (fs w)) as q eqn:Hq. revert w Hq.
  induction q as [|b q IH]; intros w Hq Hc Hp Hbad.
  - rewrite peek_empty by done. by eexists.
  - destruct (Hbad b) as (x & Hx & Hun); [by left|].
    pose proof (NoDup_queue_of this (fs w)) as Hnd. rewrite <-Hq in Hnd.
    apply NoDup_cons in Hnd as [Hb Hnd]. symmetry in Hq.
    cbn [length]. rewrite (peek_retry this _ w b _ x) by done.
    unfold try_catch, mbind, async_bind.
    rewrite remove_ok; [|apply Hc|by eexists].
    destruct (IH (set_fs (without (entry this b) (fs w))
                    (next_tick (next_tick (next_tick w)))))
      as (w' & Hrun & Hq' & Hrep).
    + simpl. symmetry. by apply queue_of_without_head in Hq.
    + apply Hc.
    + simpl. by rewrite lookup_without_path.
    + intros g Hg. simpl. rewrite lookup_without_entry.
      * apply Hbad. by right.
      * assert (g ∈ queue_of this (fs w)) as Hin by (rewrite Hq; by right).
        by apply elem_of_queue_of in Hin as (_ & ? & _).
      * by intros ->.
    + exists w'. change (fs (next_tick (next_tick w))) with (fs w).
      by rewrite Hrun.
Qed.

(** X4. When the oldest entry is valid, [peek] returns it with its id and
    changes neither the files nor the reported errors nor the flag. *)
Theorem peek_does_not_remove this w a l v fuel :
  calm w → fs w !! _path this = Some Directory →
  queue_of this (fs w) = a :: l →
  fs w !! entry this a = Some (File (Stringified v)) →
  ∃ w', peek this (S fuel) w = Fulfilled (Some (entry this a, v)) w'
        ∧ fs w' = fs w ∧ reported w' = reported w
        ∧ _truncating w' = _truncating w.
Proof. intros. erewrite peek_head by done. by eexists. Qed.

(** X5. Without the directory of the queue, [peek] returns [null], leaves the
    files alone and reports the failed listing, once. *)
Theorem peek_without_directory this w fuel :
  fs w !! _path this ≠ Some Directory →
  ∃ w', peek this (S fuel) w = Fulfilled None w'
        ∧ fs w' = fs w
        ∧ reported w' = reported w ++ [Failed (ReadDirectoryAsync (_path this))].
Proof. intros. rewrite peek_listing_fails by auto. by eexists. Qed.

Lemma peek_not_rejected this fuel w e w' : peek this fuel w ≠ Rejected e w'.
Proof.
  intros H. pose proof (wp_peek (λ _, True) this fuel w) as Hwp.
  unfold wp in Hwp. rewrite H in Hwp. by apply Hwp.
Qed.

(** What [peek] returns does not depend on the bound on its calls: a result
    reached within [fuel] calls is the result for any larger bound. *)
Theorem peek_more_fuel this fuel k w r w' :
  peek this fuel w = Fulfilled r w' → peek this (fuel + k) w = Fulfilled r w'.
Proof.
  revert w. induction fuel as [|fuel IH]; intros w; [done|].
  cbn [Nat.add peek]. unfold try_catch, mbind, async_bind.
  destruct (FileSystem.readDirectoryAsync (_path this) w) as [names w1|e w1|];
    [|done..].
  destruct (head (payloads_of names)) as [f|]; [|done].
  case_bool_decide; [done|].
  assert (∀ w3, match match remove (entry this f) w3 with
                      | Fulfilled _ w4 => peek this fuel w4
                      | Rejected e w4 => Rejected e w4
                      | Pending => Pending
                      end with
                | Fulfilled a w0 => Fulfilled a w0
                | Rejected e w0 => Fulfilled None (report e w0)
                | Pending => Pending
                end = Fulfilled r w' →
                match match remove (entry this f) w3 with
                      | Fulfilled _ w4 => peek this (fuel + k) w4
                      | Rejected e w4 => Rejected e w4
                      | Pending => Pending
                      end with
                | Fulfilled a w0 => Fulfilled a w0
                | Rejected e w0 => Fulfilled None (report e w0)
                | Pending => Pending
                end = Fulfilled r w') as Hretry.
  { intros w3. destruct (remove_outcome (entry this f) w3) as (w4 & -> & _).
    destruct (peek this fuel w4) as [r4 w5|e5 w5|] eqn:Hrec.
    - intros [= -> ->]. by rewrite (IH _ Hrec).
    - by apply peek_not_rejected in Hrec.
    - done. }
  destruct (FileSystem.readAsStringAsync (entry this f) w1) as [t w2|e w2|].
  - destruct (JSON_parse t w2) as [v w3|e w3|]; simpl; [done| |done].
    apply Hretry.
  - simpl. apply Hretry.
  - done.
Qed.

(** ** More about file names *)

(** X7. A name that [generateFilename] makes matches [filenameRe] exactly when
    the resource name holds no line terminator: the payloads of a resource
    whose name holds one are written but never listed. *)
Theorem generateFilename_matches resource now draws :
  filenameRe_test (generateFilename resource now draws)
  = negb (has_line_terminator resource).
Proof.
  destruct (has_line_terminator resource) eqn:Hr; simpl;
    [|by apply filenameRe_generateFilename].
  unfold filenameRe_test, generateFilename. rewrite strip_prefix_app.
  by rewrite has_line_terminator_app, Hr, andb_false_r.
Qed.

(** X8. For clock values of the years 0 to 9999: a name generated at a later
    clock value sorts after one generated earlier, whatever the random
    draws; at one clock value the names sort as their uids do. *)
Theorem generateFilename_order resource d1 draws1 d2 draws2 :
  calendar_date d1 → calendar_date d2 →
  (earlier d1 d2 →
   str_lt (generateFilename resource d1 draws1) (generateFilename resource d2 draws2))
  ∧ (d1 = d2 →
     String.compare (generateFilename resource d1 draws1)
                    (generateFilename resource d2 draws2)
     = String.compare (uid draws1) (uid draws2)).
Proof.
  intros H1 H2. split.
  - by apply generateFilename_lt.
  - intros ->. apply generateFilename_tie.
Qed.

(** ** More about [enqueue], [init] and [update] *)

(** X9. On an empty queue and a device that rejects no call, [peek] after
    [enqueue] returns the request with [retries: 0] under the generated
    name, and removes nothing. *)
Theorem enqueue_then_peek this req now draws w fuel :
  resource_ok this → calm w → fresh this w →
  ∃ w1 w2,
    enqueue this req now draws w = Fulfilled () w1
    ∧ peek this (S fuel) w1 =
        Fulfilled (Some (entry this (generateFilename (_resource this) now draws),
                         with_retries_0 req)) w2
    ∧ fs w2 = fs w1.
Proof.
  intros [Hsl Hlt] Hc [Hq Hp].
  set (f := generateFilename (_resource this) now draws).
  assert (has_slash f = false) as Hfsl by by apply has_slash_generateFilename.
  assert (filenameRe_test f = true) as Hfre
    by by apply filenameRe_generateFilename.
  assert (fs w !! entry this f = None) as Hnew.
  { destruct (fs w !! entry this f) as [x|] eqn:Hx; [|done]. exfalso.
    assert (f ∈ queue_of this (fs w)) as Hin.
    { apply elem_of_queue_of. split_and!; [done..|]. by rewrite Hx. }
    rewrite Hq in Hin. by apply elem_of_nil in Hin. }
  destruct (enqueue_calm this req now draws w) as (w1 & Hrun & Hc1 & Hfs & _);
    [done|done|done|by apply filenameRe_nonempty|by fold f; rewrite Hnew|].
  fold f in Hfs.
  exists w1, (next_tick (next_tick w1)). split; [done|]. split; [|done].
  apply (peek_head this fuel w1 f []).
  - apply Hc1.
  - rewrite Hfs, lookup_insert_ne, lookup_insert_eq; [done|]. apply entry_ne_path.
  - rewrite Hfs, queue_of_insert_last, queue_of_insert_path, Hq;
      [done|done|done|]. rewrite queue_of_insert_path, Hq. constructor.
  - by rewrite Hfs, lookup_insert_eq.
Qed.

(** X10. [update] never moves an entry: the queue has the same names in the
    same order before and after, whatever the id and the device. *)
Theorem update_keeps_queue this id updates w w' :
  update id updates w = Fulfilled () w' →
  queue_of this (fs w') = queue_of this (fs w).
Proof.
  intros Hrun. destruct (update_outcome id updates w) as (w1 & Hrun1 & Hupd & _).
  rewrite Hrun in Hrun1. injection Hrun1 as <-.
  destruct Hupd as [(p & Hp & -> & _)|[-> _]]; [|done].
  apply queue_of_insert_existing. by rewrite Hp.
Qed.

Lemma update_calm this a updates p w :
  calm w → fs w !! _path this = Some Directory →
  has_slash a = false → a ≠ "" →
  fs w !! entry this a = Some (File (Stringified p)) →
  update (entry this a) updates w =
  Fulfilled () (set_fs (<[entry this a := File (Stringified (merged p updates))]> (fs w))
                  (next_tick (next_tick w))).
Proof.
  intros Hc Hp Hsl Hne Ha. unfold update, try_catch, mbind, async_bind.
  rewrite (readAsStringAsync_ok _ (Stringified p)) by done. simpl.
  rewrite writeAsStringAsync_ok; try done.
  - apply Hc.
  - simpl. by rewrite Ha.
Qed.

(** X11. On a device that rejects no call, after [update] of the oldest entry
    [peek] returns that same entry with the merged payload. *)
Theorem update_then_peek this a l p updates w fuel :
  calm w → fs w !! _path this = Some Directory →
  queue_of this (fs w) = a :: l →
  fs w !! entry this a = Some (File (Stringified p)) →
  ∃ w1 w2,
    update (entry this a) updates w = Fulfilled () w1
    ∧ peek this (S fuel) w1 = Fulfilled (Some (entry this a, merged p updates)) w2
    ∧ queue_of this (fs w1) = a :: l.
Proof.
  intros Hc Hp Hq Ha. destruct (listed_head this _ _ _ Hq) as (Hre & Hsl & _).
  rewrite (update_calm this a updates p) by eauto using filenameRe_nonempty.
  eexists _, _. split; [done|].
  assert (queue_of this (<[entry this a := File (Stringified (merged p updates))]> (fs w))
          = a :: l) as Hq'.
  { rewrite queue_of_insert_existing; [done|by rewrite Ha]. }
  split; [|done]. apply (peek_head this fuel _ a l); [apply Hc| |done|].
  - simpl. rewrite lookup_insert_ne; [done|]. apply entry_ne_path.
  - simpl. by rewrite lookup_insert_eq.
Qed.

(** X12. The merge of [update] is one level deep: a property of the stored
    object is that of the updates if they have it and that of the payload
    otherwise; [enqueue] stores the properties of the request and
    [retries: 0]. *)
Theorem merge_is_shallow k payload updates req :
  field k (merged payload updates) =
    match get_prop k (spread [] updates) with
    | Some v => Some v
    | None => get_prop k (spread [] payload)
    end
  ∧ field k (with_retries_0 req) =
      if bool_decide (k = "retries") then Some (JNumber 0)
      else get_prop k (spread [] req).
Proof.
  split.
  - unfold field, merged. apply get_prop_spread.
  - unfold field, with_retries_0. apply get_set_prop.
Qed.

Lemma set_prop_fresh k v ps : k ∉ ps.*1 → set_prop k v ps = ps ++ [(k, v)].
Proof.
  induction ps as [|[k' v'] ps IH]; [done|]. simpl.
  intros [Hk Hps]%not_elem_of_cons. rewrite bool_decide_false by done.
  by rewrite IH.
Qed.

Lemma fold_assign_fresh ps acc :
  NoDup (acc.*1 ++ ps.*1) → fold_left assign ps acc = acc ++ ps.
Proof.
  revert acc. induction ps as [|[k v] ps IH]; intros acc Hnd; simpl.
  - by rewrite (right_id_L [] (++)).
  - simpl in Hnd. unfold assign at 2. simpl. rewrite set_prop_fresh.
    + rewrite IH; [by rewrite <-(assoc_L (++))|].
      by rewrite fmap_app, <-(assoc_L (++)).
    + apply NoDup_app in Hnd as (_ & Hnd & _). intros Hk.
      apply (Hnd k Hk). by left.
Qed.

(** X13. An [update] with no updates stores an object with distinct keys as it
    was. *)
Theorem update_without_updates_keeps_payload ps :
  NoDup ps.*1 → merged (JObject ps) (JObject []) = JObject ps.
Proof.
  intros Hnd. unfold merged, spread. simpl. f_equal.
  by apply (fold_assign_fresh ps []).
Qed.

(** ** More about truncation *)

(** X14. When the queue holds at most [MAX_ITEMS] entries, [_truncate] changes
    no file, whatever the device rejects. *)
Theorem truncate_within_limit this w w' :
  length (queue_of this (fs w)) ≤ MAX_ITEMS →
  _truncate this w = Fulfilled () w' → fs w' = fs w.
Proof.
  intros Hlen. unfold _truncate, mbind, async_bind, _truncate_guard.
  destruct (_truncating w); [by intros [= <-]|]. intros Hrun.
  pose proof (wp_truncate_pass (λ w1, fs w1 = fs w) this (set_truncating true w)
                (λ _ _, False) False) as Hwp.
  unfold wp in Hwp. rewrite Hrun in Hwp.
  assert (fs w' = fs w ∧ _truncating w' = false) as [? _]; [|done].
  apply Hwp; try done.
  intros f w1 _ _ Hf. simpl in Hf.
  replace (length (queue_of this (fs w)) - MAX_ITEMS) with 0 in Hf by lia.
  by apply elem_of_nil in Hf.
Qed.

(** X15. Whatever the device rejects, [_truncate] leaves the [MAX_ITEMS] entries
    whose names sort last as they were. *)
Theorem truncate_spares_the_newest this w w' n :
  _truncate this w = Fulfilled () w' →
  n ∈ drop (length (queue_of this (fs w)) - MAX_ITEMS) (queue_of this (fs w)) →
  fs w' !! entry this n = fs w !! entry this n.
Proof.
  unfold _truncate, mbind, async_bind, _truncate_guard.
  destruct (_truncating w); [by intros [= <-]|]. intros Hrun Hn.
  pose proof (wp_truncate_pass
                (λ w1, fs w1 !! entry this n = fs w !! entry this n)
                this (set_truncating true w) (λ _ _, False) False) as Hwp.
  unfold wp in Hwp. rewrite Hrun in Hwp.
  assert (fs w' !! entry this n = fs w !! entry this n
          ∧ _truncating w' = false) as [? _]; [|done].
  apply Hwp; try done.
  intros f w1 _ _ Hf <-. simpl in Hf.
  pose proof (NoDup_queue_of this (fs w)) as Hnd.
  rewrite <-(take_drop (length (queue_of this (fs w)) - MAX_ITEMS)) in Hnd.
  apply NoDup_app in Hnd as (_ & Hnd & _).
  apply lookup_without_entry.
  - apply elem_of_drop_1, elem_of_queue_of in Hn as (_ & ? & _). done.
  - intros ->. by apply (Hnd n).
Qed.

(** X21. When no pass is in flight, the call of [_truncate] that [enqueue]
    leaves in flight, resumed before anything else happens, does exactly
    what an awaited call of [_truncate] does, whatever the device
    rejects. *)
Theorem unawaited_then_settled_is_awaited this w :
  _truncating w = false → in_flight w = None →
  (_truncate_unawaited this ;; settle this) w = _truncate this w.
Proof.
  intros Hw Hin.
  destruct (truncate_unawaited_enters this w Hw) as (p & Hcall & Hrun).
  unfold mbind at 1, async_bind at 1. rewrite Hrun.
  unfold settle. cbn [in_flight set_in_flight].
  unfold _truncate, mbind, async_bind, _truncate_guard. rewrite Hw.
  unfold _truncate_pass.
  rewrite (truncate_from_called this (FileSystem.readDirectoryAsync (_path this))).
  unfold mbind, async_bind. rewrite Hcall.
  f_equal. destruct w; simpl in *. by subst.
Qed.

(** ** More about [init] and [enqueue] *)

(** X16. On a device that rejects no call, [init] creates the directory if it
    is missing and keeps the queue as it is, and a second [init] changes
    nothing. *)
Theorem init_twice this w :
  calm w → (∀ t, fs w !! _path this ≠ Some (File t)) →
  ∃ w1 w2, init this w = Fulfilled () w1
           ∧ fs w1 = <[_path this := Directory]> (fs w)
           ∧ queue_of this (fs w1) = queue_of this (fs w)
           ∧ init this w1 = Fulfilled () w2
           ∧ fs w2 = fs w1.
Proof.
  intros Hc Hp. destruct (init_calm this w Hc Hp) as (w1 & Hrun & Hc1 & Hfs & _).
  destruct (init_calm this w1 Hc1) as (w2 & Hrun2 & _ & Hfs2 & _).
  { intros t. by rewrite Hfs, lookup_insert_eq. }
  exists w1, w2. split_and!; try done.
  - rewrite Hfs. apply queue_of_insert_path.
  - rewrite Hfs2, Hfs. apply insert_insert_eq.
Qed.

(** X17. When a file sits at the path of the queue directory, [enqueue] stores
    nothing, reports the failed [makeDirectoryAsync], and does not start a
    truncation pass. *)
Theorem enqueue_blocked_by_file this req now draws t w :
  calm w → fs w !! _path this = Some (File t) →
  ∃ w', enqueue this req now draws w = Fulfilled () w'
        ∧ fs w' = fs w
        ∧ reported w' = reported w ++ [Failed (MakeDirectoryAsync (_path this))]
        ∧ _truncating w' = _truncating w.
Proof.
  intros Hc Hp. unfold enqueue, try_catch, mbind, async_bind, init.
  unfold mbind, async_bind, FileSystem.getInfoAsync, FileSystem.makeDirectoryAsync,
    native. rewrite Hc, Hp. simpl. rewrite Hc, Hp. by eexists.
Qed.

(** X18. Two enqueues that generate the same name (same clock value, same
    draws) leave one entry, which holds the second request. *)
Theorem enqueue_same_name_overwrites this req1 req2 now draws w :
  let f := generateFilename (_resource this) now draws in
  has_slash (_resource this) = false → calm w →
  (∀ t, fs w !! _path this ≠ Some (File t)) →
  fs w !! entry this f ≠ Some Directory →
  ∃ w1 w2, enqueue this req1 now draws w = Fulfilled () w1
           ∧ enqueue this req2 now draws w1 = Fulfilled () w2
           ∧ fs w1 !! entry this f = Some (File (Stringified (with_retries_0 req1)))
           ∧ fs w2 !! entry this f = Some (File (Stringified (with_retries_0 req2)))
           ∧ queue_of this (fs w2) = queue_of this (fs w1).
Proof.
  intros f Hsl Hc Hp Hd.
  assert (has_slash f = false) as Hfsl by by apply has_slash_generateFilename.
  destruct (enqueue_calm this req1 now draws w) as (w1 & Hrun1 & Hc1 & Hfs1 & _);
    try done.
  fold f in Hfs1.
  destruct (enqueue_calm this req2 now draws w1) as (w2 & Hrun2 & Hc2 & Hfs2 & _);
    try done.
  { intros t. rewrite Hfs1, lookup_insert_ne, lookup_insert_eq; [done|].
    apply entry_ne_path. }
  { fold f. by rewrite Hfs1, lookup_insert_eq. }
  fold f in Hfs2. exists w1, w2. split_and!; try done.
  - by rewrite Hfs1, lookup_insert_eq.
  - by rewrite Hfs2, lookup_insert_eq.
  - rewrite Hfs2, queue_of_insert_existing, queue_of_insert_path; [done|].
    rewrite lookup_insert_ne by apply not_eq_sym, entry_ne_path.
    by rewrite Hfs1, lookup_insert_eq.
Qed.

(** ** Queues of different resources *)



Section two_queues.
Variables cacheDirectory r1 r2 : string.
Hypothesis Hne : r1 ≠ r2.
Hypothesis Hr1 : has_slash r1 = false.
Hypothesis Hr2 : has_slash r2 = false.





End two_queues.

(** X20. For a clock value of the years 0 to 9999 the generated name is 55
    characters longer than the resource name, and holds a slash only if the
    resource name holds one. *)
Theorem generateFilename_length resource now draws :
  calendar_date now →
  String.length (generateFilename resource now draws) = String.length resource + 55
  ∧ has_slash (generateFilename resource now draws) = has_slash resource.
Proof.
  intros Hcal. unfold generateFilename. split.
  - rewrite !str_length_app, length_iso, length_uid by done. simpl. lia.
  - rewrite !has_slash_app, has_slash_iso, has_slash_uid. simpl.
    by rewrite !orb_false_r.
Qed.

(** X6. On a device that rejects no call and with only valid entries, repeated
    [peek] and [remove] return every entry with its stored payload, in the
    order of the names, and leave the queue empty. *)
Theorem drain_returns_in_name_order this w fuel rounds :
  calm w → fs w !! _path this = Some Directory →
  (∀ n, n ∈ queue_of this (fs w) →
        ∃ v, fs w !! entry this n = Some (File (Stringified v))) →
  length (queue_of this (fs w)) ≤ rounds →
  ∃ taken w',
    drain this (S fuel) rounds w = Fulfilled taken w'
    ∧ taken.*1 = entry this <$> queue_of this (fs w)
    ∧ (∀ id v, (id, v) ∈ taken → fs w !! id = Some (File (Stringified v)))
    ∧ queue_of this (fs w') = [].
Proof.
  intros Hc Hp Hvalid Hlen.
  assert (∃ kept : list (string * json),
            kept.*1 = queue_of this (fs w)
            ∧ ∀ n v, (n, v) ∈ kept → fs w !! entry this n = Some (File (Stringified v)))
    as (kept & Hkept & Hfiles).
  { revert Hvalid. generalize (queue_of this (fs w)).
    induction l as [|n l IH]; intros Hvalid.
    { exists []. split; [done|]. intros n v Hin. by apply elem_of_nil in Hin. }
    destruct (Hvalid n) as [v Hv]; [by left|].
    destruct IH as (kept & Hk & Hf); [intros m Hm; apply Hvalid; by right|].
    exists ((n, v) :: kept). split; [by rewrite <-Hk|].
    intros n' v' [[= -> ->]|Hin]%elem_of_cons; [done|by apply Hf]. }
  destruct (drain_calm this kept w fuel rounds) as (w' & Hrun & Hq & _); try done.
  { by rewrite <-Hkept, length_fmap in Hlen. }
  exists ((λ nv, (entry this nv.1, nv.2)) <$> kept), w'. split_and!; try done.
  - rewrite <-Hkept, <-!list_fmap_compose. done.
  - intros id v ([n v'] & [= -> ->] & Hin)%list_elem_of_fmap. by apply Hfiles.
Qed.

Lemma peek_settles_witness :
  ∃ r w', peek events_queue
            (S (length (queue_of events_queue (fs (device corrupt_then_valid no_faults)))))
            (device corrupt_then_valid no_faults) = Fulfilled r w'
          ∧ peeked events_queue r w'.
Proof. apply peek_settles, calm_device. Defined.

Lemma peek_heals_prefix_witness :
  ∃ w', peek events_queue (S (length ["bugsnag-a.json"] + 0))
          (device corrupt_then_valid no_faults)
        = Fulfilled (Some (entry_b, with_retries_0 report_b)) w'
        ∧ queue_of events_queue (fs w') = ["bugsnag-b.json"]
        ∧ (∀ b, b ∈ ["bugsnag-a.json"] → fs w' !! entry events_queue b = None)
        ∧ reported w' = [].
Proof.
  apply (peek_heals_prefix events_queue ["bugsnag-a.json"] "bugsnag-b.json" []
           (with_retries_0 report_b) (device corrupt_then_valid no_faults) 0).
  - apply calm_device.
  - by vm_compute.
  - by vm_compute.
  - intros b ->%list_elem_of_singleton. exists (File (Malformed "{")).
    split; [by vm_compute|exact I].
  - by vm_compute.
Defined.

Lemma peek_empties_unreadable_queue_witness :
  ∃ w', peek events_queue
          (S (length (queue_of events_queue (fs (device unreadable_only no_faults)))))
          (device unreadable_only no_faults) = Fulfilled None w'
        ∧ queue_of events_queue (fs w') = []
        ∧ reported w' = [].
Proof.
  apply (peek_empties_unreadable_queue events_queue (device unreadable_only no_faults)).
  - apply calm_device.
  - by vm_compute.
  - intros b Hb.
    assert (queue_of events_queue (fs (device unreadable_only no_faults))
            = ["bugsnag-a.json"; "bugsnag-b.json"]) as Hq by by vm_compute.
    rewrite Hq in Hb.
    apply elem_of_cons in Hb as [->|Hb]; [|apply list_elem_of_singleton in Hb as ->].
    + exists (File (Malformed "{")). split; [by vm_compute|exact I].
    + exists Directory. split; [by vm_compute|exact I].
Defined.

Lemma peek_does_not_remove_witness :
  ∃ w', peek events_queue 1 (device two_valid no_faults)
        = Fulfilled (Some (entry_a, with_retries_0 report_a)) w'
        ∧ fs w' = two_valid ∧ reported w' = [] ∧ _truncating w' = false.
Proof.
  apply (peek_does_not_remove events_queue (device two_valid no_faults)
           "bugsnag-a.json" ["bugsnag-b.json"]).
  - apply calm_device.
  - by vm_compute.
  - by vm_compute.
  - by vm_compute.
Defined.

Lemma peek_without_directory_witness :
  ∃ w', peek events_queue 1 (device ∅ no_faults) = Fulfilled None w'
        ∧ fs w' = ∅
        ∧ reported w' = [] ++ [Failed (ReadDirectoryAsync (_path events_queue))].
Proof.
  apply (peek_without_directory events_queue (device ∅ no_faults) 0).
  simpl. by rewrite lookup_empty.
Defined.

Lemma generateFilename_order_witness :
  str_lt (generateFilename "events" (noon 0) (draws_of 9))
         (generateFilename "events" (noon 1) (draws_of 0)).
Proof.
  apply (generateFilename_order "events" (noon 0) (draws_of 9) (noon 1) (draws_of 0)).
  - apply calendar_noon. lia.
  - apply calendar_noon. lia.
  - unfold earlier. simpl. lia.
Defined.

Lemma enqueue_then_peek_witness :
  ∃ w1 w2,
    enqueue events_queue report_a (noon 0) (draws_of 0) (device ∅ no_faults)
      = Fulfilled () w1
    ∧ peek events_queue 1 w1 =
        Fulfilled (Some (entry events_queue first_name, with_retries_0 report_a)) w2
    ∧ fs w2 = fs w1.
Proof.
  apply (enqueue_then_peek events_queue report_a (noon 0) (draws_of 0)
           (device ∅ no_faults) 0).
  - split; reflexivity.
  - apply calm_device.
  - apply fresh_empty.
Defined.

Lemma update_keeps_queue_witness :
  queue_of events_queue (fs after_bump)
  = queue_of events_queue (fs (device two_valid no_faults)).
Proof.
  apply (update_keeps_queue events_queue entry_a bump (device two_valid no_faults)).
  by vm_compute.
Defined.

Lemma update_then_peek_witness :
  ∃ w1 w2,
    update entry_a bump (device two_valid no_faults) = Fulfilled () w1
    ∧ peek events_queue 1 w1
      = Fulfilled (Some (entry_a, merged (with_retries_0 report_a) bump)) w2
    ∧ queue_of events_queue (fs w1) = ["bugsnag-a.json"; "bugsnag-b.json"].
Proof.
  apply (update_then_peek events_queue "bugsnag-a.json" ["bugsnag-b.json"]
           (with_retries_0 report_a) bump (device two_valid no_faults) 0).
  - apply calm_device.
  - by vm_compute.
  - by vm_compute.
  - by vm_compute.
Defined.

Lemma update_without_updates_keeps_payload_witness :
  merged (with_retries_0 report_a) (JObject []) = with_retries_0 report_a.
Proof.
  apply (update_without_updates_keeps_payload
           [("apiKey", JString "a"); ("retries", JNumber 0)]).
  simpl. apply NoDup_cons_2; [by intros ?%list_elem_of_singleton|apply NoDup_singleton].
Defined.

Lemma truncate_within_limit_witness :
  fs (World two_valid 1 no_faults [] false None) = fs (device two_valid no_faults).
Proof.
  apply (truncate_within_limit events_queue).
  - vm_compute. lia.
  - by vm_compute.
Defined.

Lemma truncate_spares_the_newest_witness :
  fs (World two_valid 1 no_faults [] false None) !! entry_b
  = fs (device two_valid no_faults) !! entry_b.
Proof.
  apply (truncate_spares_the_newest events_queue (device two_valid no_faults)).
  - by vm_compute.
  - assert (queue_of events_queue (fs (device two_valid no_faults))
            = ["bugsnag-a.json"; "bugsnag-b.json"]) as -> by by vm_compute.
    simpl. right. by left.
Defined.

Lemma unawaited_then_settled_is_awaited_witness :
  (_truncate_unawaited events_queue ;; settle events_queue) (device crowded no_faults)
  = _truncate events_queue (device crowded no_faults).
Proof.
  apply (unawaited_then_settled_is_awaited events_queue (device crowded no_faults)).
  - reflexivity.
  - reflexivity.
Defined.

Lemma init_twice_witness :
  ∃ w1 w2, init events_queue (device ∅ no_faults) = Fulfilled () w1
           ∧ fs w1 = <[_path events_queue := Directory]> ∅
           ∧ queue_of events_queue (fs w1) = queue_of events_queue ∅
           ∧ init events_queue w1 = Fulfilled () w2
           ∧ fs w2 = fs w1.
Proof.
  apply (init_twice events_queue (device ∅ no_faults)).
  - apply calm_device.
  - intros t. simpl. by rewrite lookup_empty.
Defined.

Lemma enqueue_blocked_by_file_witness :
  ∃ w', enqueue events_queue report_a (noon 0) (draws_of 0) (device blocked no_faults)
        = Fulfilled () w'
        ∧ fs w' = blocked
        ∧ reported w' = [] ++ [Failed (MakeDirectoryAsync (_path events_queue))]
        ∧ _truncating w' = false.
Proof.
  apply (enqueue_blocked_by_file events_queue report_a (noon 0) (draws_of 0)
           (Malformed "x") (device blocked no_faults)).
  - apply calm_device.
  - by vm_compute.
Defined.

Lemma enqueue_same_name_overwrites_witness :
  ∃ w1 w2,
    enqueue events_queue report_a (noon 0) (draws_of 0) (device ∅ no_faults)
      = Fulfilled () w1
    ∧ enqueue events_queue report_b (noon 0) (draws_of 0) w1 = Fulfilled () w2
    ∧ fs w1 !! entry events_queue first_name
      = Some (File (Stringified (with_retries_0 report_a)))
    ∧ fs w2 !! entry events_queue first_name
      = Some (File (Stringified (with_retries_0 report_b)))
    ∧ queue_of events_queue (fs w2) = queue_of events_queue (fs w1).
Proof.
  apply (enqueue_same_name_overwrites events_queue report_a report_b (noon 0)
           (draws_of 0) (device ∅ no_faults)).
  - reflexivity.
  - apply calm_device.
  - intros t. simpl. by rewrite lookup_empty.
  - simpl. by rewrite lookup_empty.
Defined.


Lemma generateFilename_length_witness :
  String.length first_name = String.length "events" + 55
  ∧ has_slash first_name = has_slash "events".
Proof. apply (generateFilename_length "events" (noon 0)), calendar_noon. lia. Defined.

Lemma drain_returns_in_name_order_witness :
  ∃ taken w',
    drain events_queue 1 2 (device two_valid no_faults) = Fulfilled taken w'
    ∧ taken.*1 = entry events_queue
                   <$> queue_of events_queue (fs (device two_valid no_faults))
    ∧ (∀ id v, (id, v) ∈ taken →
         fs (device two_valid no_faults) !! id = Some (File (Stringified v)))
    ∧ queue_of events_queue (fs w') = [].
Proof.
  assert (queue_of events_queue (fs (device two_valid no_faults))
          = ["bugsnag-a.json"; "bugsnag-b.json"]) as Hq by by vm_compute.
  apply (drain_returns_in_name_order events_queue (device two_valid no_faults) 0 2).
  - apply calm_device.
  - by vm_compute.
  - intros n Hn. rewrite Hq in Hn.
    apply elem_of_cons in Hn as [->|Hn]; [|apply list_elem_of_singleton in Hn as ->].
    + eexists. by vm_compute.
    + eexists. by vm_compute.
  - rewrite Hq. simpl. lia.
Defined.
